(** * I8080-Microkernel: the enhanced emulator core

    A shallow embedding of [src/emulator_enhanced.cpp] and its headers:
    the instruction tracer, the interrupt controller, the memory bank
    controller, the byte cache, the profiler and the step function of
    [EnhancedCPU8080], followed by the properties of the specification
    that concern them.

    Machine integers are [Z] with the wrap-around of their C++ type
    written out where an operation can leave the type's range.  Methods
    that mutate [this] and may throw are computations in a state and
    exception monad, so that the object's state after a [throw] is
    part of the result. *)

From stdpp Require Import base numbers list gmap strings.

Local Open Scope Z_scope.

(** ** Machine integers *)

Definition u8 (x : Z) : Z := x mod 2 ^ 8.
Definition u16 (x : Z) : Z := x mod 2 ^ 16.
Definition u32 (x : Z) : Z := x mod 2 ^ 32.
Definition u64 (x : Z) : Z := x mod 2 ^ 64.

(** [size_t] is the 64-bit unsigned type of the host. *)
Definition size_t_add (x y : Z) : Z := u64 (x + y).

(** ** Exceptions and the method monad *)

Module Exn.

(** [EmulatorException::ErrorCode]. *)
Inductive ErrorCode : Set :=
| INVALID_OPCODE
| MEMORY_ACCESS_VIOLATION
| STACK_OVERFLOW
| INVALID_INTERRUPT.

(** [EmulatorException]: an error code and the [what()] message. *)
Record EmulatorException : Set :=
  mk { getCode : ErrorCode; what : string }.

(** How a method call ends: it returns, it throws, or it indexes a
    raw array outside its bounds, which the C++ code does not check. *)
Inductive outcome (A : Type) : Type :=
| Return (x : A)
| Throw (e : EmulatorException)
| Undefined.

Arguments Return {A} x.
Arguments Throw {A} e.
Arguments Undefined {A}.

End Exn.

Import Exn.

(** A method of an object with state [S] and result type [A]. *)
Definition M (S A : Type) : Type := S -> outcome A * S.

Definition ret {S A} (x : A) : M S A := fun s => (Return x, s).

Definition bind {S A B} (c : M S A) (k : A -> M S B) : M S B :=
  fun s =>
    match c s with
    | (Return x, s') => k x s'
    | (Throw e, s') => (Throw e, s')
    | (Undefined, s') => (Undefined, s')
    end.

Definition throw {S A} (code : ErrorCode) (msg : string) : M S A :=
  fun s => (Throw (Exn.mk code msg), s).

Definition undefined {S A} : M S A := fun s => (Undefined, s).

Definition gets {S A} (f : S -> A) : M S A := fun s => (Return (f s), s).

Definition modify {S} (f : S -> S) : M S unit := fun s => (Return tt, f s).

(** [try { body } catch (const std::exception& e) { throw ...; }]:
    every exception leaving [body] is replaced by [rethrow] of it. *)
Definition try_catch {S A}
    (rethrow : EmulatorException -> EmulatorException) (body : M S A)
    : M S A :=
  fun s =>
    match body s with
    | (Throw e, s') => (Throw (rethrow e), s')
    | r => r
    end.

(** The handler [throw EmulatorException(code, e.what())]: the
    exception is thrown again under [code], with the message it
    carried. *)
Definition try_recast {S A} (code : ErrorCode) : M S A -> M S A :=
  try_catch (fun e => Exn.mk code (what e)).

(** The handler [throw EmulatorException(code, msg)]. *)
Definition try_replace {S A} (code : ErrorCode) (msg : string)
    : M S A -> M S A :=
  try_catch (fun _ => Exn.mk code msg).

(** Indexing without a bounds check. *)
Definition unchecked {S A} (o : option A) : M S A :=
  match o with
  | Some x => ret x
  | None => undefined
  end.

Notation "'let*' x ':=' c1 'in' c2" := (bind c1 (fun x => c2))
  (at level 10, x name, c1 at level 100, c2 at level 200).

(** ** CPU state ([8080emuCPP.h]) *)

Module S8080.

(** [ConditionCodes]: eight one-bit fields. *)
Record ConditionCodes : Set := mkCC {
  cy : bool; pad : bool; p : bool; pad2 : bool;
  ac : bool; pad3 : bool; z : bool; s : bool
}.

(** [State8080]. *)
Record State8080 : Set := mkState {
  a : Z; b : Z; c : Z; d : Z; e : Z; h : Z; l : Z;
  sp : Z; pc : Z;
  cc : ConditionCodes;
  int_enable : Z
}.

(** [State8080{}]: every member zero. *)
Definition zero : State8080 :=
  mkState 0 0 0 0 0 0 0 0 0
          (mkCC false false false false false false false false) 0.

End S8080.

(** ** Instruction tracer *)

Module Tracer.

Record TraceEntry : Set := mkEntry {
  pc : Z; opcode : Z; state : S8080.State8080; cycle : Z
}.

Record InstructionTracer : Set := mkTracer {
  trace_buffer : list TraceEntry;
  max_entries : Z
}.

(** Default member initialisers: empty buffer, [max_entries = 1000]. *)
Definition init : InstructionTracer := mkTracer [] 1000.

(** [addTrace]: [push_back], then erase [begin()] when the size
    exceeds [max_entries]. *)
Definition addTrace (pc opcode : Z) (st : S8080.State8080) (cycle : Z)
    (t : InstructionTracer) : InstructionTracer :=
  let entry := mkEntry pc opcode st cycle in
  let pushed := trace_buffer t ++ [entry] in
  if Z.of_nat (length pushed) >? max_entries t
  then mkTracer (tail pushed) (max_entries t)
  else mkTracer pushed (max_entries t).

Definition clear (t : InstructionTracer) : InstructionTracer :=
  mkTracer [] (max_entries t).

Definition setMaxEntries (max : Z) (t : InstructionTracer)
    : InstructionTracer :=
  mkTracer (trace_buffer t) max.

(** The buffer holds no more entries than the configured maximum. *)
Definition bounded (t : InstructionTracer) : Prop :=
  Z.of_nat (length (trace_buffer t)) <= max_entries t.

(** [addTrace] called once per entry of a list, first to last. *)
Definition addTraces (es : list TraceEntry) (t : InstructionTracer)
    : InstructionTracer :=
  fold_left (fun t e => addTrace (pc e) (opcode e) (state e) (cycle e) t)
            es t.

(** The last [n] elements of a list. *)
Definition most_recent (n : nat) (l : list TraceEntry) : list TraceEntry :=
  drop (length l - n) l.

End Tracer.

(** ** Interrupt controller *)

Module IntCtl.

Record InterruptRequest : Set := mkReq {
  code : Z; priority : Z; pending : bool
}.

(** [std::queue<InterruptRequest> int_queue]; the head of the list is
    [front()], [push] appends at the back. *)
Record InterruptController : Set := mkCtl {
  int_queue : list InterruptRequest
}.

Definition init : InterruptController := mkCtl [].

Definition queueInterrupt (code priority : Z)
    : M InterruptController unit :=
  modify (fun ic => mkCtl (int_queue ic ++ [mkReq code priority true])).

Definition hasInterrupt (ic : InterruptController) : bool :=
  match int_queue ic with
  | [] => false
  | _ :: _ => true
  end.

Definition getNextInterrupt : M InterruptController InterruptRequest :=
  fun ic =>
    match int_queue ic with
    | [] => throw INVALID_INTERRUPT "No pending interrupts" ic
    | req :: rest => (Return req, mkCtl rest)
    end.

Definition clear : M InterruptController unit :=
  modify (fun _ => mkCtl []).

(** Queue the requests [(code, priority)] of a list, first to last. *)
Fixpoint queue_all (reqs : list (Z * Z)) (ic : InterruptController)
    : InterruptController :=
  match reqs with
  | [] => ic
  | (c, p) :: rest => queue_all rest (snd (queueInterrupt c p ic))
  end.

(** Call [getNextInterrupt] [n] times, collecting what it returns and
    stopping at the first exception. *)
Fixpoint drain (n : nat) (ic : InterruptController)
    : list InterruptRequest * InterruptController :=
  match n with
  | O => ([], ic)
  | S k =>
      match getNextInterrupt ic with
      | (Return req, ic') =>
          let (got, ic'') := drain k ic' in (req :: got, ic'')
      | (_, ic') => ([], ic')
      end
  end.

End IntCtl.

(** ** Memory bank controller *)

Module Bank.

Record BankMapping : Set := mkMapping {
  bank : Z; baseAddr : Z; size : Z; readOnly : bool
}.

(** [banks] holds one zero-initialised byte array per bank. *)
Record MemoryBankController : Set := mkMBC {
  banks : list (list Z);
  currentBank : Z;
  bankSize : Z;
  mappings : list BankMapping
}.

(** [MemoryBankController(num_banks, bank_size)]. *)
Definition ctor (num_banks bank_size : Z) : MemoryBankController :=
  mkMBC (replicate (Z.to_nat num_banks)
                   (replicate (Z.to_nat bank_size) 0))
        0 bank_size [].

Definition set_currentBank (b : Z) (s : MemoryBankController) :=
  mkMBC (banks s) b (bankSize s) (mappings s).

Definition push_mapping (m : BankMapping) (s : MemoryBankController) :=
  mkMBC (banks s) (currentBank s) (bankSize s) (mappings s ++ [m]).

Definition set_banks (bs : list (list Z)) (s : MemoryBankController) :=
  mkMBC bs (currentBank s) (bankSize s) (mappings s).

(** [bank >= banks.size()]. *)
Definition bad_bank (b : Z) (s : MemoryBankController) : bool :=
  Z.of_nat (length (banks s)) <=? b.

(** The loop of [switchBank] over [mappings]: its body is empty for
    every entry, whether or not the entry belongs to the current
    bank. *)
Fixpoint flush_pending (cur : Z) (ms : list BankMapping)
    : M MemoryBankController unit :=
  match ms with
  | [] => ret tt
  | entry :: rest =>
      let* _ := (if bank entry =? cur then ret tt else ret tt) in
      flush_pending cur rest
  end.

Definition switchBank (b : Z) : M MemoryBankController unit :=
  try_recast MEMORY_ACCESS_VIOLATION
    (let* bad := gets (bad_bank b) in
     if (bad : bool) then
       throw MEMORY_ACCESS_VIOLATION "Invalid bank number"
     else
       let* cur := gets currentBank in
       let* ms := gets mappings in
       let* _ := flush_pending cur ms in
       modify (set_currentBank b)).

(** [address >= mapping.baseAddr &&
     address < mapping.baseAddr + mapping.size]; the sum is computed
    in [int] and cannot wrap. *)
Definition contains (m : BankMapping) (address : Z) : bool :=
  (baseAddr m <=? address) && (address <? baseAddr m + size m).

(** The condition under which [mapMemory] reports an overlap with
    [mapping]; [address + bankSize] is computed in [size_t]. *)
Definition overlap_test (address bsz : Z) (m : BankMapping) : bool :=
  contains m address
  || ((baseAddr m <? size_t_add address bsz)
      && (size_t_add address bsz <=? baseAddr m + size m)).

(** The overlap loop of [mapMemory]. *)
Fixpoint check_overlap (address bsz : Z) (ms : list BankMapping)
    : M MemoryBankController unit :=
  match ms with
  | [] => ret tt
  | m :: rest =>
      if overlap_test address bsz m then
        throw MEMORY_ACCESS_VIOLATION "Memory mapping overlap"
      else check_overlap address bsz rest
  end.

Definition mapMemory (address b : Z) : M MemoryBankController unit :=
  try_recast MEMORY_ACCESS_VIOLATION
    (let* bad := gets (bad_bank b) in
     if (bad : bool) then
       throw MEMORY_ACCESS_VIOLATION "Invalid bank number"
     else
       let* bsz := gets bankSize in
       let* ms := gets mappings in
       let* _ := check_overlap address bsz ms in
       if size_t_add address bsz >? 65535 then
         throw MEMORY_ACCESS_VIOLATION
               "Memory mapping exceeds address space"
       else
         modify (push_mapping (mkMapping b address (u16 bsz) false))).

(** [banks[b][off]] as an rvalue. *)
Definition load (b off : Z) : M MemoryBankController Z :=
  let* bs := gets banks in
  unchecked (row ← bs !! Z.to_nat b; row !! Z.to_nat off).

(** [banks[b][off] = value]. *)
Definition store (b off value : Z) : M MemoryBankController unit :=
  let* bs := gets banks in
  let* row := unchecked (bs !! Z.to_nat b) in
  let* _ := unchecked (row !! Z.to_nat off) in
  modify (set_banks (<[Z.to_nat b := <[Z.to_nat off := value]> row]> bs)).

(** The mapped-region loop of [read], followed by the use of the
    current bank when the loop finds nothing. *)
Fixpoint read_from (address : Z) (ms : list BankMapping)
    : M MemoryBankController Z :=
  match ms with
  | [] =>
      let* bsz := gets bankSize in
      if bsz <=? address then
        throw MEMORY_ACCESS_VIOLATION "Address out of range"
      else
        let* cur := gets currentBank in
        load cur address
  | m :: rest =>
      if contains m address then
        let bankOffset := u16 (address - baseAddr m) in
        let* bsz := gets bankSize in
        if bsz <=? bankOffset then
          throw MEMORY_ACCESS_VIOLATION "Bank offset out of range"
        else load (bank m) bankOffset
      else read_from address rest
  end.

Definition read (address : Z) : M MemoryBankController Z :=
  try_recast MEMORY_ACCESS_VIOLATION
    (let* ms := gets mappings in read_from address ms).

Fixpoint write_to (address value : Z) (ms : list BankMapping)
    : M MemoryBankController unit :=
  match ms with
  | [] =>
      let* bsz := gets bankSize in
      if bsz <=? address then
        throw MEMORY_ACCESS_VIOLATION "Address out of range"
      else
        let* cur := gets currentBank in
        store cur address value
  | m :: rest =>
      if contains m address then
        if readOnly m then
          throw MEMORY_ACCESS_VIOLATION "Write to read-only memory"
        else
          let bankOffset := u16 (address - baseAddr m) in
          let* bsz := gets bankSize in
          if bsz <=? bankOffset then
            throw MEMORY_ACCESS_VIOLATION "Bank offset out of range"
          else store (bank m) bankOffset value
      else write_to address value rest
  end.

Definition write (address value : Z) : M MemoryBankController unit :=
  try_recast MEMORY_ACCESS_VIOLATION
    (let* ms := gets mappings in write_to address value ms).

(** The public interface, as a step relation: every state a client
    can bring the controller to.  An array of more than [2^63 - 1]
    bytes cannot be allocated, which bounds [bank_size]. *)
Inductive op : Set :=
| OpSwitchBank (b : Z)
| OpMapMemory (address b : Z)
| OpRead (address : Z)
| OpWrite (address value : Z).

Definition run (o : op) (s : MemoryBankController)
    : MemoryBankController :=
  match o with
  | OpSwitchBank b => snd (switchBank b s)
  | OpMapMemory address b => snd (mapMemory address b s)
  | OpRead address => snd (read address s)
  | OpWrite address value => snd (write address value s)
  end.

(** Arguments are values of the parameter types [uint16_t] and
    [uint8_t]. *)
Definition op_typed (o : op) : Prop :=
  match o with
  | OpSwitchBank b => 0 <= b < 256
  | OpMapMemory address b => 0 <= address < 65536 /\ 0 <= b < 256
  | OpRead address => 0 <= address < 65536
  | OpWrite address value => 0 <= address < 65536 /\ 0 <= value < 256
  end.

Inductive reachable : MemoryBankController -> Prop :=
| reach_ctor num_banks bank_size :
    0 <= num_banks -> 0 <= bank_size < 2 ^ 63 ->
    reachable (ctor num_banks bank_size)
| reach_step o s :
    reachable s -> op_typed o -> reachable (run o s).

(** Guest addresses covered by a mapping, and by the range a call of
    [mapMemory address _] asks for. *)
Definition covers (m : BankMapping) (x : Z) : Prop :=
  baseAddr m <= x < baseAddr m + size m.

Definition new_range (address bsz x : Z) : Prop :=
  address <= x < address + bsz.

Definition overlaps_existing (address : Z) (s : MemoryBankController)
    : Prop :=
  exists m x, m ∈ mappings s /\ covers m x
              /\ new_range address (bankSize s) x.

(** What [banks[b][off]] yields in state [s]. *)
Definition fetch (b off : Z) (s : MemoryBankController) : outcome Z :=
  match row ← banks s !! Z.to_nat b; row !! Z.to_nat off with
  | Some v => Return v
  | None => Undefined
  end.

Definition violation (msg : string) : EmulatorException :=
  Exn.mk MEMORY_ACCESS_VIOLATION msg.

(** The access [read] and [write] make once the mapping [m], or the
    current bank, has been selected for [address]. *)
Definition read_mapped (m : BankMapping) (address : Z)
    (s : MemoryBankController) : outcome Z * MemoryBankController :=
  let off := u16 (address - baseAddr m) in
  if bankSize s <=? off
  then (Throw (violation "Bank offset out of range"), s)
  else (fetch (bank m) off s, s).

Definition read_current (address : Z) (s : MemoryBankController)
    : outcome Z * MemoryBankController :=
  if bankSize s <=? address
  then (Throw (violation "Address out of range"), s)
  else (fetch (currentBank s) address s, s).

Definition write_mapped (m : BankMapping) (address value : Z)
    (s : MemoryBankController)
    : outcome unit * MemoryBankController :=
  let off := u16 (address - baseAddr m) in
  if readOnly m
  then (Throw (violation "Write to read-only memory"), s)
  else if bankSize s <=? off
  then (Throw (violation "Bank offset out of range"), s)
  else store (bank m) off value s.

Definition write_current (address value : Z)
    (s : MemoryBankController)
    : outcome unit * MemoryBankController :=
  if bankSize s <=? address
  then (Throw (violation "Address out of range"), s)
  else store (currentBank s) address value s.

(** No guest address is covered by two entries of the table. *)
Definition disjoint_table (ms : list BankMapping) : Prop :=
  forall i j m1 m2 x,
    ms !! i = Some m1 -> ms !! j = Some m2 ->
    covers m1 x -> covers m2 x -> i = j.

(** What every table entry made by [mapMemory] satisfies. *)
Definition entry_ok (s : MemoryBankController) (m : BankMapping) : Prop :=
  readOnly m = false
  /\ size m = bankSize s
  /\ 0 <= baseAddr m
  /\ baseAddr m + size m <= 65535
  /\ 0 <= bank m < Z.of_nat (length (banks s)).

(** The representation invariant of the controller. *)
Definition wf (s : MemoryBankController) : Prop :=
  0 <= bankSize s < 2 ^ 63
  /\ Forall (fun row => length row = Z.to_nat (bankSize s)) (banks s)
  /\ Forall (entry_ok s) (mappings s)
  /\ disjoint_table (mappings s).

(** The bank and offset that [read] and [write] select for [address]:
    those of the first mapping that contains it, the current bank and
    the address itself when there is none. *)
Fixpoint cell_from (address : Z) (ms : list BankMapping) (cur : Z)
    : Z * Z :=
  match ms with
  | [] => (cur, address)
  | m :: rest =>
      if contains m address
      then (bank m, u16 (address - baseAddr m))
      else cell_from address rest cur
  end.

Definition cell (address : Z) (s : MemoryBankController) : Z * Z :=
  cell_from address (mappings s) (currentBank s).

(** Some mapping contains [address]. *)
Definition mapped (address : Z) (s : MemoryBankController) : bool :=
  existsb (fun m => contains m address) (mappings s).

(** [address] is in no mapping and not below [bankSize]. *)
Definition out_of_range (address : Z) (s : MemoryBankController) : bool :=
  negb (mapped address s) && (bankSize s <=? address).

(** A call of the public interface with its result dropped. *)
Definition forget {A} (r : outcome A) : outcome unit :=
  match r with
  | Return _ => Return tt
  | Throw e => Throw e
  | Undefined => Undefined
  end.

Definition call (o : op) (s : MemoryBankController)
    : outcome unit * MemoryBankController :=
  match o with
  | OpSwitchBank b => switchBank b s
  | OpMapMemory address b => mapMemory address b s
  | OpRead address => (forget (fst (read address s)), snd (read address s))
  | OpWrite address value => write address value s
  end.

(** The current bank exists, unless there is no bank at all. *)
Definition cur_ok (s : MemoryBankController) : Prop :=
  banks s = [] \/ 0 <= currentBank s < Z.of_nat (length (banks s)).

(** A sequence of calls, first to last. *)
Definition run_all (ops : list op) (s : MemoryBankController)
    : MemoryBankController :=
  fold_left (fun st o => run o st) ops s.

(** A call that is neither a [write] nor a [switchBank]. *)
Definition intervening (o : op) : bool :=
  match o with
  | OpRead _ | OpMapMemory _ _ => true
  | OpWrite _ _ | OpSwitchBank _ => false
  end.

(** Read-after-write coherence over calls [ops] made between the
    write and the read, none of them a write or a bank switch. *)
Definition read_after_write_coherent (a v : Z)
    (s : MemoryBankController) (ops : list op) : Prop :=
  fst (write a v s) = Return tt ->
  forallb intervening ops = true ->
  fst (read a (run_all ops (snd (write a v s)))) = Return v.

(** The calls [ops], made one after the other from state [s], leave
    the resolution of [a] alone: each is a [read], or a [mapMemory]
    that throws or whose range does not hold [a]. *)
Fixpoint undisturbed (a : Z) (ops : list op) (s : MemoryBankController)
    : Prop :=
  match ops with
  | [] => True
  | o :: rest =>
      match o with
      | OpRead _ => True
      | OpMapMemory address b =>
          fst (mapMemory address b s) = Return tt ->
          ~ new_range address (bankSize s) a
      | OpWrite _ _ | OpSwitchBank _ => False
      end
      /\ undisturbed a rest (run o s)
  end.

End Bank.

(** ** Guest memory *)

(** Modelled from the spec: [MemoryBase] and [Memory], declared in
    [memoryBase.h] and [memory_manager.h], which are not among the
    sources; the spec gives a flat backing store of bytes with
    [read(addr)] and [write(addr, value)], and every access below is at
    a 16-bit address. *)
Definition Memory : Type := Z -> Z.

Definition mem_set (addr value : Z) (m : Memory) : Memory :=
  fun x => if x =? addr then value else m x.

(** [Memory mem(n)] before a program is loaded. *)
Definition mem_zero : Memory := fun _ => 0.

(** Bytes of a raw image placed from address [at_]. *)
Fixpoint mem_load (at_ : Z) (image : list Z) (m : Memory) : Memory :=
  match image with
  | [] => m
  | byte :: rest => mem_load (at_ + 1) rest (mem_set at_ byte m)
  end.

(** ** Byte cache *)

Module Cache.

Definition CACHE_SIZE : Z := 256.

Record CacheEntry : Set := mkEntry {
  address : Z; value : Z; valid : bool; dirty : bool
}.

(** A [MemoryCache] together with the memory its [MemoryBase*]
    points to, which its methods read and write. *)
Record View : Type := mkView {
  cache : list CacheEntry;
  memory : Memory
}.

(** The constructor clears [valid] and [dirty] of all 256 entries and
    leaves [address] and [value] unset; they are only read under
    [valid]. *)
Definition ctor : list CacheEntry :=
  replicate (Z.to_nat CACHE_SIZE) (mkEntry 0 0 false false).

Definition set_entry (index : Z) (en : CacheEntry) (v : View) : View :=
  mkView (<[Z.to_nat index := en]> (cache v)) (memory v).

Definition set_memory (addr val : Z) (v : View) : View :=
  mkView (cache v) (mem_set addr val (memory v)).

Definition entry_at (index : Z) : M View CacheEntry :=
  let* cs := gets cache in unchecked (cs !! Z.to_nat index).

Definition read (addr : Z) : M View Z :=
  let index := Z.land addr (CACHE_SIZE - 1) in
  let* entry := entry_at index in
  if valid entry && (address entry =? addr) then ret (value entry)
  else
    let* _ := (if valid entry && dirty entry
               then modify (set_memory (address entry) (value entry))
               else ret tt) in
    let* fetched := gets (fun v => memory v addr) in
    let* _ := modify (set_entry index (mkEntry addr fetched true false)) in
    ret fetched.

Definition write (addr val : Z) : M View unit :=
  try_replace MEMORY_ACCESS_VIOLATION "Cache write failed"
    (let index := Z.land addr (CACHE_SIZE - 1) in
     let* _ := entry_at index in
     modify (set_entry index (mkEntry addr val true true))).

(** One iteration of the loop of [flush], for the entry at position
    [i] of the array. *)
Definition flush_entry (i : nat) (entry : CacheEntry) (v : View) : View :=
  if valid entry && dirty entry then
    mkView (<[i := mkEntry (address entry) (value entry)
                           (valid entry) false]> (cache v))
           (mem_set (address entry) (value entry) (memory v))
  else v.

Fixpoint flush_from (i : nat) (es : list CacheEntry) (v : View) : View :=
  match es with
  | [] => v
  | entry :: rest => flush_from (S i) rest (flush_entry i entry v)
  end.

Definition flush : M View unit :=
  try_replace MEMORY_ACCESS_VIOLATION "Cache flush failed"
    (modify (fun v => flush_from 0 (cache v) v)).

(** Some buffered write has not reached memory. *)
Definition has_dirty (es : list CacheEntry) : bool :=
  existsb (fun en => valid en && dirty en) es.

(** The array slot in which [addr] is cached. *)
Definition slot (addr : Z) : Z := Z.land addr (CACHE_SIZE - 1).

(** The byte a client of the cache sees at [addr]: the cached value
    when the slot of [addr] holds [addr], the byte in memory
    otherwise. *)
Definition visible (v : View) (addr : Z) : Z :=
  match cache v !! Z.to_nat (slot addr) with
  | Some en =>
      if valid en && (address en =? addr) then value en
      else memory v addr
  | None => memory v addr
  end.

(** The representation invariant of the cache over its memory: the
    array has [CACHE_SIZE] entries, a valid entry sits in the slot of
    its address, and a valid entry that is not dirty holds the byte
    that memory holds. *)
Definition wf (v : View) : Prop :=
  length (cache v) = Z.to_nat CACHE_SIZE
  /\ forall i en,
       cache v !! i = Some en -> valid en = true ->
       Z.to_nat (slot (address en)) = i
       /\ (dirty en = false -> value en = memory v (address en)).

(** An entry after [flush] has passed over it. *)
Definition clean (en : CacheEntry) : CacheEntry :=
  if valid en && dirty en
  then mkEntry (address en) (value en) (valid en) false
  else en.

End Cache.

(** ** Profiler *)

Module Prof.

Record InstructionProfile : Set := mkProfile {
  execution_count : Z;
  total_cycles : Z;
  max_cycles : Z;
  cache_misses : Z
}.

Definition zero : InstructionProfile := mkProfile 0 0 0 0.

(** [std::array<InstructionProfile, 256> profiles{}]. *)
Definition init : list InstructionProfile := replicate 256 zero.

Definition record1 (cycles : Z) (cache_miss : bool)
    (pr : InstructionProfile) : InstructionProfile :=
  mkProfile (u64 (execution_count pr + 1))
            (u64 (total_cycles pr + cycles))
            (Z.max (max_cycles pr) cycles)
            (if cache_miss then u64 (cache_misses pr + 1)
             else cache_misses pr).

Definition recordExecution (opcode cycles : Z) (cache_miss : bool)
    (profiles : list InstructionProfile) : list InstructionProfile :=
  alter (record1 cycles cache_miss) (Z.to_nat opcode) profiles.

Definition reset (profiles : list InstructionProfile)
    : list InstructionProfile :=
  (fun _ => zero) <$> profiles.

(** [getProfile]: [profiles[opcode]]. *)
Definition getProfile (opcode : Z) (profiles : list InstructionProfile)
    : option InstructionProfile :=
  profiles !! Z.to_nat opcode.

(** The arguments of one call of [recordExecution]. *)
Record Execution : Set := mkExecution {
  opcode : Z; cycles : Z; cache_miss : bool
}.

(** [recordExecution] called once per element of a list, first to
    last. *)
Definition record_all (runs : list Execution)
    (profiles : list InstructionProfile) : list InstructionProfile :=
  fold_left
    (fun ps r => recordExecution (opcode r) (cycles r) (cache_miss r) ps)
    runs profiles.

(** The executions of one opcode, and what they add up to. *)
Definition of_opcode (op : Z) (runs : list Execution) : list Execution :=
  filter (fun r => opcode r = op) runs.

Definition sum_cycles (runs : list Execution) : Z :=
  foldr (fun r acc => cycles r + acc) 0 runs.

Definition peak_cycles (runs : list Execution) : Z :=
  foldr (fun r acc => Z.max (cycles r) acc) 0 runs.

Definition count_misses (runs : list Execution) : Z :=
  foldr (fun r acc => (if cache_miss r then 1 else 0) + acc) 0 runs.

End Prof.

(** ** Instruction decoder table *)

Module Decoder.

Record DecodedInstruction : Set := mkDecoded {
  length : Z;
  cycles : Z;
  affects_flags : bool;
  memory_access : bool
}.

(** [createInstructionTable]: every entry starts as [{1, 4, false,
    false}]; the listed opcodes and the ranges [0x40..0x7F] and
    [0x80..0xBF] are then assigned.  The assignments never touch an
    opcode twice with different values, so their order is immaterial. *)
Definition INSTRUCTION_TABLE (i : Z) : DecodedInstruction :=
  if (0x40 <=? i) && (i <=? 0x7F) then
    let isMemoryOp := (Z.land i 0x07 =? 0x06) || (Z.land i 0x3F =? 0x36) in
    mkDecoded 1 (if isMemoryOp then 7 else 5) false isMemoryOp
  else if (0x80 <=? i) && (i <=? 0xBF) then
    let isMemoryOp := Z.land i 0x07 =? 0x06 in
    mkDecoded 1 (if isMemoryOp then 7 else 4) true isMemoryOp
  else
    match i with
    | 0x00 => mkDecoded 1 4 false false
    | 0x01 => mkDecoded 3 10 false false
    | 0x02 => mkDecoded 1 7 false true
    | 0x03 => mkDecoded 1 5 false false
    | 0x04 => mkDecoded 1 5 true false
    | 0x05 => mkDecoded 1 5 true false
    | 0x06 => mkDecoded 2 7 false false
    | 0x07 => mkDecoded 1 4 true false
    | 0x08 => mkDecoded 1 4 false false
    | 0x09 => mkDecoded 1 10 false false
    | 0x0A => mkDecoded 1 7 false true
    | 0x0B => mkDecoded 1 5 false false
    | 0x0C => mkDecoded 1 5 true false
    | 0x0D => mkDecoded 1 5 true false
    | 0x0E => mkDecoded 2 7 false false
    | 0x0F => mkDecoded 1 4 true false
    | 0x11 => mkDecoded 3 10 false false
    | 0x12 => mkDecoded 1 7 false true
    | 0x13 => mkDecoded 1 5 false false
    | 0x14 => mkDecoded 1 5 true false
    | 0x15 => mkDecoded 1 5 true false
    | 0x16 => mkDecoded 2 7 false false
    | 0x17 => mkDecoded 1 4 true false
    | 0x21 => mkDecoded 3 10 false false
    | 0x22 => mkDecoded 3 16 false true
    | 0x23 => mkDecoded 1 5 false false
    | 0x24 => mkDecoded 1 5 true false
    | 0x25 => mkDecoded 1 5 true false
    | 0x26 => mkDecoded 2 7 false false
    | 0x27 => mkDecoded 1 4 true false
    | 0x31 => mkDecoded 3 10 false false
    | 0x32 => mkDecoded 3 13 false true
    | 0x33 => mkDecoded 1 5 false false
    | 0x34 => mkDecoded 1 10 true true
    | 0x35 => mkDecoded 1 10 true true
    | 0x36 => mkDecoded 2 10 false true
    | 0x37 => mkDecoded 1 4 true false
    | 0xC0 => mkDecoded 1 11 false false
    | 0xC1 => mkDecoded 1 10 false false
    | 0xC2 => mkDecoded 3 10 false false
    | 0xC3 => mkDecoded 3 10 false false
    | 0xC4 => mkDecoded 3 17 false false
    | 0xC5 => mkDecoded 1 11 false false
    | 0xC6 => mkDecoded 2 7 true false
    | 0xC7 => mkDecoded 1 11 false false
    | 0xC8 => mkDecoded 1 11 false false
    | 0xC9 => mkDecoded 1 10 false false
    | 0xCA => mkDecoded 3 10 false false
    | 0xCC => mkDecoded 3 17 false false
    | 0xCD => mkDecoded 3 17 false false
    | 0xCE => mkDecoded 2 7 true false
    | 0xCF => mkDecoded 1 11 false false
    | 0xD3 => mkDecoded 2 10 false false
    | 0xDB => mkDecoded 2 10 false false
    | 0xE3 => mkDecoded 1 18 false false
    | 0xE9 => mkDecoded 1 5 false false
    | 0xEB => mkDecoded 1 5 false false
    | 0xF3 => mkDecoded 1 4 false false
    | 0xFB => mkDecoded 1 4 false false
    | _ => mkDecoded 1 4 false false
    end.

End Decoder.

(** ** The CPU and its enhanced step *)

Module Cpu.

(** The data members of the base class [CPU8080], with the [State8080]
    and the memory its two pointers refer to; [lastOpcode] is the
    address the pointer holds. *)
Record CPU8080 : Type := mkBase {
  interrupt : Z;
  interrupt_code : Z;
  quantum : Z;
  scheduler_timer : Z;
  initialized : Z;
  int_buffer : Z;
  state : S8080.State8080;
  memory : Memory;
  lastOpcode : Z
}.

(** Default member initialisers of [CPU8080]. *)
Definition base_ctor (st : S8080.State8080) (mem : Memory) : CPU8080 :=
  mkBase 0 0 80 0 0 256 st mem 0.

Definition set_state (st : S8080.State8080) (b : CPU8080) : CPU8080 :=
  mkBase (interrupt b) (interrupt_code b) (quantum b) (scheduler_timer b)
         (initialized b) (int_buffer b) st (memory b) (lastOpcode b).

Definition set_memory (mem : Memory) (b : CPU8080) : CPU8080 :=
  mkBase (interrupt b) (interrupt_code b) (quantum b) (scheduler_timer b)
         (initialized b) (int_buffer b) (state b) mem (lastOpcode b).

Record CachedInstruction : Set := mkCached {
  length : Z;
  cycles : Z;
  affects_flags : bool;
  result_a : Z; result_b : Z; result_c : Z; result_d : Z;
  result_e : Z; result_h : Z; result_l : Z
}.

(** [EnhancedCPU8080]; the state manager takes no part in a step and
    is left out. *)
Record EnhancedCPU8080 : Type := mkCpu {
  base : CPU8080;
  tracingEnabled : bool;
  profilingEnabled : bool;
  bankingEnabled : bool;
  tracer : Tracer.InstructionTracer;
  intController : IntCtl.InterruptController;
  memoryBanking : Bank.MemoryBankController;
  profiler : list Prof.InstructionProfile;
  instructionCache : gmap Z CachedInstruction;
  memoryCache : list Cache.CacheEntry;
  cacheFlushCounter : Z
}.

Definition ctor (st : S8080.State8080) (mem : Memory) : EnhancedCPU8080 :=
  mkCpu (base_ctor st mem) false false false
        Tracer.init IntCtl.init (Bank.ctor 4 0x4000) Prof.init
        ∅ Cache.ctor 0.

Definition set_base (b : CPU8080) (c : EnhancedCPU8080) :=
  mkCpu b (tracingEnabled c) (profilingEnabled c) (bankingEnabled c)
        (tracer c) (intController c) (memoryBanking c) (profiler c)
        (instructionCache c) (memoryCache c) (cacheFlushCounter c).

Definition set_flags (tr pr bk : bool) (c : EnhancedCPU8080) :=
  mkCpu (base c) tr pr bk
        (tracer c) (intController c) (memoryBanking c) (profiler c)
        (instructionCache c) (memoryCache c) (cacheFlushCounter c).

Definition set_tracer (t : Tracer.InstructionTracer) (c : EnhancedCPU8080) :=
  mkCpu (base c) (tracingEnabled c) (profilingEnabled c) (bankingEnabled c)
        t (intController c) (memoryBanking c) (profiler c)
        (instructionCache c) (memoryCache c) (cacheFlushCounter c).

Definition set_intController (ic : IntCtl.InterruptController)
    (c : EnhancedCPU8080) :=
  mkCpu (base c) (tracingEnabled c) (profilingEnabled c) (bankingEnabled c)
        (tracer c) ic (memoryBanking c) (profiler c)
        (instructionCache c) (memoryCache c) (cacheFlushCounter c).

Definition set_memoryBanking (mb : Bank.MemoryBankController)
    (c : EnhancedCPU8080) :=
  mkCpu (base c) (tracingEnabled c) (profilingEnabled c) (bankingEnabled c)
        (tracer c) (intController c) mb (profiler c)
        (instructionCache c) (memoryCache c) (cacheFlushCounter c).

Definition set_profiler (p : list Prof.InstructionProfile)
    (c : EnhancedCPU8080) :=
  mkCpu (base c) (tracingEnabled c) (profilingEnabled c) (bankingEnabled c)
        (tracer c) (intController c) (memoryBanking c) p
        (instructionCache c) (memoryCache c) (cacheFlushCounter c).

Definition set_instructionCache (ic : gmap Z CachedInstruction)
    (c : EnhancedCPU8080) :=
  mkCpu (base c) (tracingEnabled c) (profilingEnabled c) (bankingEnabled c)
        (tracer c) (intController c) (memoryBanking c) (profiler c)
        ic (memoryCache c) (cacheFlushCounter c).

Definition set_cacheFlushCounter (n : Z) (c : EnhancedCPU8080) :=
  mkCpu (base c) (tracingEnabled c) (profilingEnabled c) (bankingEnabled c)
        (tracer c) (intController c) (memoryBanking c) (profiler c)
        (instructionCache c) (memoryCache c) n.

(** The byte cache and the guest memory, seen as the state of the
    [MemoryCache] methods. *)
Definition cache_view (c : EnhancedCPU8080) : Cache.View :=
  Cache.mkView (memoryCache c) (memory (base c)).

Definition set_cache_view (v : Cache.View) (c : EnhancedCPU8080) :=
  mkCpu (set_memory (Cache.memory v) (base c))
        (tracingEnabled c) (profilingEnabled c) (bankingEnabled c)
        (tracer c) (intController c) (memoryBanking c) (profiler c)
        (instructionCache c) (Cache.cache v) (cacheFlushCounter c).

(** Running a method of a member object on the enclosing CPU. *)
Definition on_base {A} (m : M CPU8080 A) : M EnhancedCPU8080 A :=
  fun c => let (r, b) := m (base c) in (r, set_base b c).

Definition on_memoryCache {A} (m : M Cache.View A) : M EnhancedCPU8080 A :=
  fun c => let (r, v) := m (cache_view c) in (r, set_cache_view v c).

Definition on_memoryBanking {A} (m : M Bank.MemoryBankController A)
    : M EnhancedCPU8080 A :=
  fun c => let (r, mb) := m (memoryBanking c) in
           (r, set_memoryBanking mb c).

Definition on_intController {A} (m : M IntCtl.InterruptController A)
    : M EnhancedCPU8080 A :=
  fun c => let (r, ic) := m (intController c) in
           (r, set_intController ic c).

Definition enableTracing (enable : bool) (c : EnhancedCPU8080) :=
  let c' := set_flags enable (profilingEnabled c) (bankingEnabled c) c in
  if enable then c' else set_tracer (Tracer.clear (tracer c')) c'.

Definition enableProfiling (enable : bool) (c : EnhancedCPU8080) :=
  let c' := set_flags (tracingEnabled c) enable (bankingEnabled c) c in
  if enable then c' else set_profiler (Prof.reset (profiler c')) c'.

Definition when {S} (cond : bool) (m : M S unit) : M S unit :=
  if cond then m else ret tt.

(** The fast path: the cached register values, length and cycle
    count replace the execution of the instruction. *)
Definition apply_cached (cached : CachedInstruction)
    (st : S8080.State8080) : S8080.State8080 :=
  S8080.mkState (result_a cached) (result_b cached) (result_c cached)
                (result_d cached) (result_e cached) (result_h cached)
                (result_l cached)
                (S8080.sp st) (u16 (S8080.pc st + length cached))
                (S8080.cc st) (S8080.int_enable st).

(** The entry stored after a normal execution; [opcode] is the byte
    now at the address the instruction was fetched from. *)
Definition make_cached (opcode current_cycle : Z) (st : S8080.State8080)
    : CachedInstruction :=
  mkCached (Decoder.length (Decoder.INSTRUCTION_TABLE opcode))
           (u8 current_cycle)
           (Decoder.affects_flags (Decoder.INSTRUCTION_TABLE opcode))
           (S8080.a st) (S8080.b st) (S8080.c st) (S8080.d st)
           (S8080.e st) (S8080.h st) (S8080.l st).

Definition store_cached (opcode current_cycle : Z) (c : EnhancedCPU8080) :=
  let st := state (base c) in
  let cached := make_cached opcode current_cycle st in
  set_instructionCache
    (<[u16 (S8080.pc st - length cached) := cached]> (instructionCache c))
    c.

Section Step.

(** [CPU8080::Emulate8080p], the step of the base class; its body
    is not among the sources.  [duration] is the time in
    nanoseconds that the host clock measures over the call. *)
Variable base_Emulate8080p : Z -> M CPU8080 Z.
Variable duration : Z.

Definition opcode_at (pc0 : Z) : M EnhancedCPU8080 Z :=
  gets (fun c => memory (base c) pc0).

(** From the comment "Cache miss or debug mode" to the end of
    [Emulate8080p]; [pc0] is where [opcode] points. *)
Definition execute_normally (debug pc0 : Z) : M EnhancedCPU8080 Z :=
  let* ret_cycles := on_base (base_Emulate8080p debug) in
  let current_cycle := u64 ret_cycles in
  let* cached_entries :=
    gets (fun c => Z.of_nat (size (instructionCache c))) in
  let* _ :=
    when ((debug =? 0) && (cached_entries <? 1024))
      (let* opcode := opcode_at pc0 in
       modify (store_cached opcode current_cycle)) in
  let* tracing := gets tracingEnabled in
  let* _ :=
    when tracing
      (let* opcode := opcode_at pc0 in
       modify (fun c =>
         set_tracer
           (Tracer.addTrace (S8080.pc (state (base c))) opcode
                            (state (base c)) current_cycle (tracer c))
           c)) in
  let* profiling := gets profilingEnabled in
  let* _ :=
    when profiling
      (let* opcode := opcode_at pc0 in
       let cache_miss := u64 duration >? u64 (current_cycle * 10) in
       modify (fun c =>
         set_profiler
           (Prof.recordExecution opcode current_cycle cache_miss
                                 (profiler c))
           c)) in
  let* _ := modify (fun c =>
              set_cacheFlushCounter (u32 (cacheFlushCounter c + 1)) c) in
  let* counter := gets cacheFlushCounter in
  let* _ :=
    when (1000 <=? counter)
      (let* _ := on_memoryCache Cache.flush in
       modify (set_cacheFlushCounter 0)) in
  ret (u32 current_cycle).

(** The body of the fast path. *)
Definition replay (cached : CachedInstruction) (pc0 : Z)
    : M EnhancedCPU8080 Z :=
  let* _ := modify (fun c =>
              set_base (set_state (apply_cached cached (state (base c)))
                                  (base c)) c) in
  let current_cycle := cycles cached in
  let* profiling := gets profilingEnabled in
  let* _ :=
    when profiling
      (let* opcode := opcode_at pc0 in
       modify (fun c =>
         set_profiler
           (Prof.recordExecution opcode current_cycle false (profiler c))
           c)) in
  ret (u32 current_cycle).

Definition Emulate8080p (debug : Z) : M EnhancedCPU8080 Z :=
  let* pc0 := gets (fun c => S8080.pc (state (base c))) in
  if debug =? 0 then
    let* cache_it := gets (fun c => instructionCache c !! pc0) in
    match cache_it with
    | Some cached =>
        let* opcode := opcode_at pc0 in
        if negb (affects_flags cached)
           && negb (Decoder.memory_access (Decoder.INSTRUCTION_TABLE opcode))
        then replay cached pc0
        else execute_normally debug pc0
    | None => execute_normally debug pc0
    end
  else execute_normally debug pc0.

(** The condition under which a step with [debug = 0] takes the
    fast path. *)
Definition fast_path_hit (c : EnhancedCPU8080) : bool :=
  let pc0 := S8080.pc (state (base c)) in
  match instructionCache c !! pc0 with
  | Some cached =>
      negb (affects_flags cached)
      && negb (Decoder.memory_access
                (Decoder.INSTRUCTION_TABLE (memory (base c) pc0)))
  | None => false
  end.

(** What the host observes of a step: how the call ended and the
    [State8080] it left. *)
Definition observe (r : outcome Z * EnhancedCPU8080)
    : outcome Z * S8080.State8080 :=
  (fst r, state (base (snd r))).

Definition debug_observational (debug : Z) (c : EnhancedCPU8080) : Prop :=
  observe (Emulate8080p debug c) = observe (Emulate8080p 0 c).

End Step.

(** The parts of the CPU that the scheduler and the guest see are
    the same in [c] and [c']: the [State8080], the scheduling and
    interrupt members of the base class, and the interrupt queue. *)
Definition core_unchanged (c c' : EnhancedCPU8080) : Prop :=
  state (base c') = state (base c)
  /\ scheduler_timer (base c') = scheduler_timer (base c)
  /\ quantum (base c') = quantum (base c)
  /\ interrupt (base c') = interrupt (base c)
  /\ interrupt_code (base c') = interrupt_code (base c)
  /\ intController c' = intController c.

(** [cpu.getMemoryBankController().switchBank(bank)]. *)
Definition switchBank (b : Z) : M EnhancedCPU8080 unit :=
  on_memoryBanking (Bank.switchBank b).

(** Modelled from the spec: a fragment of [CPU8080::Emulate8080p],
    whose body is not among the sources, for three opcodes of the
    spec's decoder: NOP (4 cycles), INX B (5 cycles, the pair BC plus
    one modulo 2^16, no flags) and JMP addr (10 cycles, little-endian
    operand).  Any other opcode is outside the fragment and is
    reported as [INVALID_OPCODE].  The debug argument only selects
    whether a dump is printed. *)
Definition fragment_Emulate8080p (debug : Z) : M CPU8080 Z :=
  fun b =>
    let st := state b in
    let pc0 := S8080.pc st in
    let with_pc npc :=
      S8080.mkState (S8080.a st) (S8080.b st) (S8080.c st) (S8080.d st)
                    (S8080.e st) (S8080.h st) (S8080.l st) (S8080.sp st)
                    npc (S8080.cc st) (S8080.int_enable st) in
    match memory b pc0 with
    | 0x00 => (Return 4, set_state (with_pc (u16 (pc0 + 1))) b)
    | 0x03 =>
        let bc := u16 (S8080.b st * 256 + S8080.c st + 1) in
        (Return 5,
         set_state
           (S8080.mkState (S8080.a st) (bc / 256) (bc mod 256)
                          (S8080.d st) (S8080.e st) (S8080.h st)
                          (S8080.l st) (S8080.sp st) (u16 (pc0 + 1))
                          (S8080.cc st) (S8080.int_enable st)) b)
    | 0xC3 =>
        let target :=
          Z.lor (Z.shiftl (memory b (u16 (pc0 + 2))) 8)
                (memory b (u16 (pc0 + 1))) in
        (Return 10, set_state (with_pc target) b)
    | _ => throw INVALID_OPCODE "Unimplemented opcode" b
    end.

(** A two-instruction loop: [INX B] at 0, [JMP 0x0000] at 1. *)
Definition loop_image : list Z := [0x03; 0xC3; 0x00; 0x00].

Definition loop_cpu : EnhancedCPU8080 :=
  ctor S8080.zero (mem_load 0 loop_image mem_zero).

(** [loop_cpu] after [n] steps with [debug = 0]. *)
Fixpoint after_steps (n : nat) (c : EnhancedCPU8080) : EnhancedCPU8080 :=
  match n with
  | O => c
  | S k => snd (Emulate8080p fragment_Emulate8080p 0 0
                             (after_steps k c))
  end.

(** What every entry stored by a step satisfies, and the bound the step
    keeps on the number of entries. *)
Definition cached_ok (e : CachedInstruction) : Prop :=
  1 <= length e <= 3 /\ 0 <= cycles e < 256.

Definition cache_ok (c : EnhancedCPU8080) : Prop :=
  (size (instructionCache c) <= 1024)%nat
  /\ map_Forall (fun _ e => cached_ok e) (instructionCache c).

(** The flush counter is below the period of the flush. *)
Definition counter_ok (c : EnhancedCPU8080) : Prop :=
  0 <= cacheFlushCounter c < 1000.

End Cpu.

(** ** State manager: snapshots *)

Module Snap.

(** [StateManager::Snapshot]; the manager is its vector of
    snapshots. *)
Record Snapshot : Set := mkSnapshot {
  description : string;
  state : S8080.State8080;
  memory : list Z
}.

(** The number of bytes a snapshot copies: [0x10000]. *)
Definition GUEST_BYTES : nat := Z.to_nat 0x10000.

(** The copy loop of [createSnapshot]: [memory->at(i)] pushed for [n]
    addresses from [i] upwards. *)
Fixpoint capture_from (i : Z) (n : nat) (mem : Memory) : list Z :=
  match n with
  | O => []
  | S k => mem i :: capture_from (i + 1) k mem
  end.

Definition createSnapshot (description : string) (st : S8080.State8080)
    (mem : Memory) : M (list Snapshot) unit :=
  modify (fun snapshots =>
    snapshots
    ++ [mkSnapshot description st (capture_from 0 GUEST_BYTES mem)]).

(** The [State8080&] and the memory behind the [MemoryBase*] that
    [restoreSnapshot] assigns to. *)
Record Target : Type := mkTarget {
  cpu_state : S8080.State8080;
  cpu_memory : Memory
}.

Definition set_cpu_state (st : S8080.State8080) (t : Target) : Target :=
  mkTarget st (cpu_memory t).

Definition set_byte (addr value : Z) (t : Target) : Target :=
  mkTarget (cpu_state t) (mem_set addr value (cpu_memory t)).

(** The copy loop of [restoreSnapshot]:
    [memory->at(i) = it->memory[i]] for [n] addresses from [i]
    upwards; the vector is indexed without a bounds check. *)
Fixpoint restore_from (i : Z) (n : nat) (bytes : list Z) : M Target unit :=
  match n with
  | O => ret tt
  | S k =>
      let* value := unchecked (bytes !! Z.to_nat i) in
      let* _ := modify (set_byte i value) in
      restore_from (i + 1) k bytes
  end.

(** [std::find_if] over the snapshots, comparing descriptions as
    strings; the manager itself is not changed. *)
Definition restoreSnapshot (wanted : string) (snapshots : list Snapshot)
    : M Target unit :=
  match List.find (fun s => bool_decide (description s = wanted))
                  snapshots with
  | None => throw INVALID_OPCODE "Snapshot not found"
  | Some it =>
      let* _ := modify (set_cpu_state (state it)) in
      restore_from 0 GUEST_BYTES (memory it)
  end.

(** Every snapshot holds [0x10000] bytes, as those made by
    [createSnapshot] do. *)
Definition wf (snapshots : list Snapshot) : Prop :=
  Forall (fun s => length (memory s) = GUEST_BYTES) snapshots.

(** No snapshot of the list has the description [wanted]. *)
Definition unused (wanted : string) (snapshots : list Snapshot) : Prop :=
  Forall (fun s => description s <> wanted) snapshots.

End Snap.

(** * Properties *)

(** ** Interrupt controller *)

Section InterruptQueue.

Import IntCtl.

Lemma queue_all_appends reqs ic :
  int_queue (queue_all reqs ic)
  = int_queue ic ++ map (fun cp => mkReq (fst cp) (snd cp) true) reqs.
Proof.
  revert ic. induction reqs as [|[c p] reqs IH]; intros ic; simpl.
  - now rewrite app_nil_r.
  - rewrite IH. simpl. now rewrite <- app_assoc.
Qed.

Lemma drain_all q :
  drain (length q) (mkCtl q) = (q, mkCtl []).
Proof.
  induction q as [|req q IH]; simpl; [reflexivity|].
  now rewrite IH.
Qed.

(** X1: requests queued on an empty controller are returned by
    successive calls of [getNextInterrupt] in the order they were
    queued, whatever their priorities. *)
Lemma delivery_order_is_arrival_order reqs :
  fst (drain (length reqs) (queue_all reqs init))
  = map (fun cp => mkReq (fst cp) (snd cp) true) reqs.
Proof.
  pose proof (queue_all_appends reqs init) as H. simpl in H.
  destruct (queue_all reqs init) as [q]. simpl in H. subst q.
  rewrite <- (length_map (fun cp => mkReq (fst cp) (snd cp) true)).
  now rewrite drain_all.
Qed.

(** C8: [getNextInterrupt] throws exactly when the queue is empty, and
    then with code [INVALID_INTERRUPT] and the queue as it was; when it
    returns, the queue before the call is the returned request
    followed by the queue after the call. *)
Theorem getNextInterrupt_raises_iff_empty (ic : InterruptController) :
  let r := getNextInterrupt ic in
  ((exists e, fst r = Throw e) <-> int_queue ic = [])
  /\ (forall e, fst r = Throw e ->
        getCode e = INVALID_INTERRUPT /\ snd r = ic)
  /\ (forall req, fst r = Return req ->
        int_queue ic = req :: int_queue (snd r))
  /\ fst r <> Undefined.
Proof.
  destruct ic as [[|req rest]]; cbn.
  - split; [split; [reflexivity | intros _; eauto] |].
    split; [intros e [= <-]; split; reflexivity |].
    split; [intros req [=] | discriminate].
  - split; [split; [intros [e [=]] | discriminate] |].
    split; [intros e [=] |].
    split; [intros req' [= <-]; reflexivity | discriminate].
Qed.

(** C1, at the failing input: with a request of priority 0 queued
    before a request of priority 5, [getNextInterrupt] returns the
    priority-0 request and leaves the priority-5 one pending. *)
Theorem getNextInterrupt_ignores_priority :
  let ic := queue_all [(1, 0); (2, 5)] init in
  getNextInterrupt ic = (Return (mkReq 1 0 true), mkCtl [mkReq 2 5 true])
  /\ mkReq 2 5 true ∈ int_queue ic
  /\ priority (mkReq 1 0 true) < priority (mkReq 2 5 true).
Proof.
  cbn. split; [reflexivity | split].
  - apply list_elem_of_In. simpl. auto.
  - lia.
Qed.

End InterruptQueue.

(** ** Instruction tracer *)

Section TraceBuffer.

Import Tracer.

Implicit Types (t : InstructionTracer) (st : S8080.State8080).

Lemma addTrace_max_entries pc opcode st cycle t :
  max_entries (addTrace pc opcode st cycle t) = max_entries t.
Proof. unfold addTrace. now destruct (_ >? _). Qed.

(** What [addTrace] leaves in the buffer: the pushed list when it
    fits, the pushed list without its first element otherwise. *)
Lemma addTrace_buffer pc opcode st cycle t :
  trace_buffer (addTrace pc opcode st cycle t)
  = let pushed := trace_buffer t ++ [mkEntry pc opcode st cycle] in
    if Z.of_nat (length (trace_buffer t)) <? max_entries t
    then pushed else tail pushed.
Proof.
  unfold addTrace. cbn zeta. rewrite length_app. cbn [length].
  destruct (Z.gtb_spec (Z.of_nat (length (trace_buffer t) + 1))
                       (max_entries t)),
           (Z.ltb_spec (Z.of_nat (length (trace_buffer t)))
                       (max_entries t)); cbn; try reflexivity; lia.
Qed.

(** A call removes at most one entry, so a buffer that is over the
    maximum by [k] entries is still over it by [k] afterwards. *)
Lemma addTrace_length_over pc opcode st cycle t :
  max_entries t < Z.of_nat (length (trace_buffer t)) ->
  length (trace_buffer (addTrace pc opcode st cycle t))
  = length (trace_buffer t).
Proof.
  intros Hover. rewrite addTrace_buffer. cbn zeta.
  destruct (Z.ltb_spec (Z.of_nat (length (trace_buffer t)))
                       (max_entries t)); [lia|].
  destruct (trace_buffer t) as [|old rest]; cbn.
  - cbn in Hover. reflexivity.
  - rewrite length_app. cbn. lia.
Qed.

(** On a buffer that holds at most [max_entries] entries,
    [addTrace] leaves at most [max_entries] entries and does
    not change the maximum; below the bound the new entry is added
    at the end, at the bound the oldest entry is removed and the new
    one added at the end. *)
Theorem addTrace_keeps_bound pc opcode st cycle t :
  0 <= max_entries t ->
  bounded t ->
  let t' := addTrace pc opcode st cycle t in
  let entry := mkEntry pc opcode st cycle in
  bounded t'
  /\ max_entries t' = max_entries t
  /\ (Z.of_nat (length (trace_buffer t)) < max_entries t ->
      trace_buffer t' = trace_buffer t ++ [entry])
  /\ (forall oldest rest,
        trace_buffer t = oldest :: rest ->
        Z.of_nat (length (trace_buffer t)) = max_entries t ->
        trace_buffer t' = rest ++ [entry]).
Proof.
  intros Hmax Hb. cbn zeta. unfold bounded in *.
  rewrite addTrace_max_entries, addTrace_buffer. cbn zeta.
  destruct (Z.ltb_spec (Z.of_nat (length (trace_buffer t)))
                       (max_entries t)) as [Hlt|Hge].
  - split; [rewrite length_app; cbn; lia|].
    split; [reflexivity|].
    split; [reflexivity|]. intros; lia.
  - split.
    + destruct (trace_buffer t) as [|old rest]; cbn in *; [lia|].
      rewrite length_app. cbn. lia.
    + split; [reflexivity|]. split; [lia|].
      intros oldest rest -> _. reflexivity.
Qed.

Lemma addTrace_keeps_bound_witness :
  let t := addTrace 0 0 S8080.zero 4 (setMaxEntries 1 init) in
  bounded t
  /\ trace_buffer (addTrace 1 3 S8080.zero 5 t)
     = [mkEntry 1 3 S8080.zero 5].
Proof.
  cbn zeta.
  assert (Hb : bounded (addTrace 0 0 S8080.zero 4 (setMaxEntries 1 init)))
    by (vm_compute; discriminate).
  split; [exact Hb|].
  refine (proj2 (proj2 (proj2
    (addTrace_keeps_bound 1 3 S8080.zero 5
       (addTrace 0 0 S8080.zero 4 (setMaxEntries 1 init)) _ Hb)))
    (mkEntry 0 0 S8080.zero 4) [] _ _).
  all: vm_compute; first [reflexivity | discriminate].
Defined.

(** However many entries are added to a buffer that is over the
    maximum, it keeps the number of entries it has. *)
Lemma addTraces_length_over es :
  forall t,
    max_entries t < Z.of_nat (length (trace_buffer t)) ->
    length (trace_buffer (addTraces es t)) = length (trace_buffer t).
Proof.
  induction es as [|e es IH]; intros t Hover; [reflexivity|].
  change (addTraces (e :: es) t)
    with (addTraces es (addTrace (pc e) (opcode e) (state e) (cycle e) t)).
  pose proof (addTrace_length_over (pc e) (opcode e) (state e) (cycle e)
                t Hover) as Hlen.
  rewrite IH; [exact Hlen|].
  now rewrite addTrace_max_entries, Hlen.
Qed.

(** C9, at the failing input: [setMaxEntries] stores the new maximum
    without trimming, and [addTrace] erases one entry with [if], not
    [while].  After two entries under the default maximum and
    [setMaxEntries(1)], a third [addTrace] leaves the two most recent
    entries under a maximum of one, and however many entries are
    added after that, the buffer keeps two. *)
Theorem addTrace_exceeds_lowered_maximum :
  let t := addTrace 2 0 S8080.zero 4
             (setMaxEntries 1
                (addTrace 1 0 S8080.zero 4
                   (addTrace 0 0 S8080.zero 4 init))) in
  max_entries t = 1
  /\ trace_buffer t
     = [mkEntry 1 0 S8080.zero 4; mkEntry 2 0 S8080.zero 4]
  /\ ~ bounded t
  /\ (forall es, length (trace_buffer (addTraces es t)) = 2%nat).
Proof.
  cbn zeta. split; [reflexivity|]. split; [reflexivity|]. split.
  - vm_compute. intros H. now apply H.
  - intros es. rewrite addTraces_length_over; [reflexivity|].
    vm_compute. reflexivity.
Qed.

End TraceBuffer.

(** ** Memory bank controller *)

Section BankController.

Import Bank.

Implicit Types (s : MemoryBankController) (m : BankMapping).

(** *** The methods, one equation each *)

Lemma flush_pending_skip cur ms s :
  flush_pending cur ms s = (Return tt, s).
Proof.
  induction ms as [|entry rest IH]; [reflexivity|].
  cbn [flush_pending]. unfold bind.
  now destruct (bank entry =? cur); cbn.
Qed.

Lemma switchBank_eq b s :
  switchBank b s
  = if bad_bank b s then (Throw (violation "Invalid bank number"), s)
    else (Return tt, set_currentBank b s).
Proof.
  unfold switchBank, try_recast, try_catch, bind, gets. cbn.
  destruct (bad_bank b s); [reflexivity|].
  now rewrite flush_pending_skip.
Qed.

Lemma check_overlap_eq address bsz ms s :
  check_overlap address bsz ms s
  = if existsb (overlap_test address bsz) ms
    then (Throw (violation "Memory mapping overlap"), s)
    else (Return tt, s).
Proof.
  induction ms as [|m rest IH]; [reflexivity|].
  cbn [check_overlap existsb].
  now destruct (overlap_test address bsz m).
Qed.

Lemma mapMemory_eq address b s :
  mapMemory address b s
  = if bad_bank b s then
      (Throw (violation "Invalid bank number"), s)
    else if existsb (overlap_test address (bankSize s)) (mappings s) then
      (Throw (violation "Memory mapping overlap"), s)
    else if size_t_add address (bankSize s) >? 65535 then
      (Throw (violation "Memory mapping exceeds address space"), s)
    else
      (Return tt,
       push_mapping (mkMapping b address (u16 (bankSize s)) false) s).
Proof.
  unfold mapMemory, try_recast, try_catch, bind, gets. cbn.
  destruct (bad_bank b s); [reflexivity|].
  rewrite check_overlap_eq.
  destruct (existsb _ _); [reflexivity|].
  now destruct (_ >? _).
Qed.

Lemma load_eq b off s : load b off s = (fetch b off s, s).
Proof.
  unfold load, fetch, bind, gets, unchecked.
  now destruct (_ ≫= _).
Qed.

(** The outcome of [store]: undefined outside the arrays, otherwise
    the byte is replaced in place. *)
Lemma store_eq b off value s :
  store b off value s
  = match banks s !! Z.to_nat b with
    | Some row =>
        match row !! Z.to_nat off with
        | Some _ =>
            (Return tt,
             set_banks (<[Z.to_nat b := <[Z.to_nat off := value]> row]>
                          (banks s)) s)
        | None => (Undefined, s)
        end
    | None => (Undefined, s)
    end.
Proof.
  unfold store, bind, gets, unchecked. cbn.
  destruct (banks s !! Z.to_nat b) as [row|]; [|reflexivity]. cbn.
  now destruct (row !! Z.to_nat off).
Qed.

Lemma read_from_first address before m after s :
  Forall (fun m' => contains m' address = false) before ->
  contains m address = true ->
  read_from address (before ++ m :: after) s = read_mapped m address s.
Proof.
  intros Hbefore Hm.
  induction Hbefore as [|m' before Hm' _ IH]; cbn [app read_from].
  - rewrite Hm. unfold read_mapped, bind, gets. cbn.
    destruct (_ <=? _); [reflexivity|]. apply load_eq.
  - now rewrite Hm'.
Qed.

Lemma read_from_none address ms s :
  Forall (fun m' => contains m' address = false) ms ->
  read_from address ms s = read_current address s.
Proof.
  intros Hall. induction Hall as [|m' ms Hm' _ IH]; cbn [read_from].
  - unfold read_current, bind, gets. cbn.
    destruct (_ <=? _); [reflexivity|]. apply load_eq.
  - now rewrite Hm'.
Qed.

Lemma write_to_first address value before m after s :
  Forall (fun m' => contains m' address = false) before ->
  contains m address = true ->
  write_to address value (before ++ m :: after) s
  = write_mapped m address value s.
Proof.
  intros Hbefore Hm.
  induction Hbefore as [|m' before Hm' _ IH]; cbn [app write_to].
  - rewrite Hm. unfold write_mapped, bind, gets. cbn.
    destruct (readOnly m); [reflexivity|].
    now destruct (_ <=? _).
  - now rewrite Hm'.
Qed.

Lemma write_to_none address value ms s :
  Forall (fun m' => contains m' address = false) ms ->
  write_to address value ms s = write_current address value s.
Proof.
  intros Hall. induction Hall as [|m' ms Hm' _ IH]; cbn [write_to].
  - unfold write_current, bind, gets. cbn.
    now destruct (_ <=? _).
  - now rewrite Hm'.
Qed.

(** Every list splits at its first mapping that contains [address],
    or has none. *)
Lemma first_containing address ms :
  Forall (fun m' => contains m' address = false) ms
  \/ exists before m after,
       ms = before ++ m :: after
       /\ Forall (fun m' => contains m' address = false) before
       /\ contains m address = true.
Proof.
  induction ms as [|m ms IH]; [left; constructor|].
  destruct (contains m address) eqn:Hm.
  - right. exists [], m, ms. repeat split; [constructor | exact Hm].
  - destruct IH as [Hnone | (before & m' & after & -> & Hb & Hm')].
    + left. now constructor.
    + right. exists (m :: before), m', after.
      split; [reflexivity|]. split; [now constructor | exact Hm'].
Qed.

(** [try]/[catch] in [read] and [write] changes nothing: whatever
    the body throws is already a [MEMORY_ACCESS_VIOLATION]. *)
Lemma recast_read_mapped m address s :
  try_recast MEMORY_ACCESS_VIOLATION (read_mapped m address) s
  = read_mapped m address s.
Proof.
  unfold try_recast, try_catch, read_mapped. cbn zeta.
  destruct (_ <=? _); [reflexivity|].
  unfold fetch. now destruct (_ ≫= _).
Qed.

Lemma recast_read_current address s :
  try_recast MEMORY_ACCESS_VIOLATION (read_current address) s
  = read_current address s.
Proof.
  unfold try_recast, try_catch, read_current.
  destruct (_ <=? _); [reflexivity|].
  unfold fetch. now destruct (_ ≫= _).
Qed.

Lemma store_never_throws b off value s e s' :
  store b off value s <> (Throw e, s').
Proof.
  rewrite store_eq.
  destruct (banks s !! Z.to_nat b) as [row|]; [|discriminate].
  destruct (row !! Z.to_nat off); discriminate.
Qed.

Lemma recast_write_mapped m address value s :
  try_recast MEMORY_ACCESS_VIOLATION (write_mapped m address value) s
  = write_mapped m address value s.
Proof.
  unfold try_recast, try_catch, write_mapped. cbn zeta.
  destruct (readOnly m); [reflexivity|].
  destruct (_ <=? _); [reflexivity|].
  destruct (store _ _ _ _) as [[x|e|] s'] eqn:E; try reflexivity.
  now apply store_never_throws in E.
Qed.

Lemma recast_write_current address value s :
  try_recast MEMORY_ACCESS_VIOLATION (write_current address value) s
  = write_current address value s.
Proof.
  unfold try_recast, try_catch, write_current.
  destruct (_ <=? _); [reflexivity|].
  destruct (store _ _ _ _) as [[x|e|] s'] eqn:E; try reflexivity.
  now apply store_never_throws in E.
Qed.

Lemma read_eq address s :
  read address s
  = try_recast MEMORY_ACCESS_VIOLATION
      (fun s' => read_from address (mappings s) s') s.
Proof. reflexivity. Qed.

Lemma write_eq address value s :
  write address value s
  = try_recast MEMORY_ACCESS_VIOLATION
      (fun s' => write_to address value (mappings s) s') s.
Proof. reflexivity. Qed.

Lemma read_first address before m after s :
  mappings s = before ++ m :: after ->
  Forall (fun m' => contains m' address = false) before ->
  contains m address = true ->
  read address s = read_mapped m address s.
Proof.
  intros Hs Hb Hm. rewrite read_eq, Hs.
  rewrite <- recast_read_mapped. unfold try_recast, try_catch.
  now rewrite read_from_first.
Qed.

Lemma read_none address s :
  Forall (fun m' => contains m' address = false) (mappings s) ->
  read address s = read_current address s.
Proof.
  intros Hall. rewrite read_eq.
  rewrite <- recast_read_current. unfold try_recast, try_catch.
  now rewrite read_from_none.
Qed.

Lemma write_first address value before m after s :
  mappings s = before ++ m :: after ->
  Forall (fun m' => contains m' address = false) before ->
  contains m address = true ->
  write address value s = write_mapped m address value s.
Proof.
  intros Hs Hb Hm. rewrite write_eq, Hs.
  rewrite <- recast_write_mapped. unfold try_recast, try_catch.
  now rewrite write_to_first.
Qed.

Lemma write_none address value s :
  Forall (fun m' => contains m' address = false) (mappings s) ->
  write address value s = write_current address value s.
Proof.
  intros Hall. rewrite write_eq.
  rewrite <- recast_write_current. unfold try_recast, try_catch.
  now rewrite write_to_none.
Qed.

Lemma contains_covers m address :
  contains m address = true <-> covers m address.
Proof. unfold contains, covers. rewrite andb_true_iff. lia. Qed.

(** C5: [read] and [write] scan the table in insertion order.  When
    the table is [before ++ m :: after] and [m] is the first entry
    whose range holds [address], the access goes to bank [bank m] at
    offset [address - baseAddr m]; when no entry holds [address], it
    goes to the current bank at offset [address], and throws
    [MEMORY_ACCESS_VIOLATION] if [address >= bankSize]. *)
Theorem read_write_resolve_in_insertion_order address value s :
  (forall before m after,
     mappings s = before ++ m :: after ->
     Forall (fun m' => ~ covers m' address) before ->
     covers m address ->
     read address s = read_mapped m address s
     /\ write address value s = write_mapped m address value s)
  /\ (Forall (fun m' => ~ covers m' address) (mappings s) ->
      read address s = read_current address s
      /\ write address value s = write_current address value s
      /\ (bankSize s <= address ->
          read address s
          = (Throw (violation "Address out of range"), s)
          /\ write address value s
             = (Throw (violation "Address out of range"), s))).
Proof.
  assert (Hnot : forall ms,
    Forall (fun m' => ~ covers m' address) ms ->
    Forall (fun m' => contains m' address = false) ms).
  { intros ms Hms. eapply Forall_impl; [exact Hms|]. intros m' Hm'.
    destruct (contains m' address) eqn:E; [|reflexivity].
    now apply contains_covers in E. }
  split.
  - intros before m after Hs Hb%Hnot Hm%contains_covers.
    split; [eapply read_first | eapply write_first]; eassumption.
  - intros Hall%Hnot.
    rewrite (read_none _ _ Hall), (write_none _ _ _ Hall).
    split; [reflexivity|]. split; [reflexivity|].
    intros Hge. unfold read_current, write_current.
    destruct (Z.leb_spec (bankSize s) address); [now split | lia].
Qed.

(** *** Read after write *)

Lemma store_fetch b off value s s' :
  store b off value s = (Return tt, s') ->
  fetch b off s' = Return value
  /\ mappings s' = mappings s
  /\ bankSize s' = bankSize s
  /\ currentBank s' = currentBank s.
Proof.
  rewrite store_eq.
  destruct (banks s !! Z.to_nat b) as [row|] eqn:Hrow; [|discriminate].
  destruct (row !! Z.to_nat off) as [old|] eqn:Hold; [|discriminate].
  intros [= <-]. split; [|now cbn].
  unfold fetch. cbn.
  rewrite list_lookup_insert_eq by (eapply lookup_lt_Some; eassumption).
  cbn.
  rewrite list_lookup_insert_eq by (eapply lookup_lt_Some; eassumption).
  reflexivity.
Qed.

(** A [read] made right after a [write] of the same address returns
    the byte written, for mapped and unmapped addresses alike. *)
Lemma read_after_write address value s s' :
  write address value s = (Return tt, s') ->
  read address s' = (Return value, s').
Proof.
  intros Hw.
  destruct (first_containing address (mappings s))
    as [Hnone | (before & m & after & Hs & Hb & Hm)].
  - rewrite (write_none _ _ _ Hnone) in Hw. unfold write_current in Hw.
    destruct (bankSize s <=? address) eqn:Hsz; [discriminate|].
    apply store_fetch in Hw as (Hf & Hms & Hbs & Hcur).
    rewrite read_none by now rewrite Hms.
    unfold read_current. now rewrite Hbs, Hsz, Hcur, Hf.
  - rewrite (write_first _ _ _ _ _ _ Hs Hb Hm) in Hw.
    unfold write_mapped in Hw. cbn zeta in Hw.
    destruct (readOnly m); [discriminate|].
    destruct (bankSize s <=? _) eqn:Hsz; [discriminate|].
    apply store_fetch in Hw as (Hf & Hms & Hbs & Hcur).
    rewrite (read_first address before m after)
      by (try assumption; now rewrite Hms).
    unfold read_mapped. cbn zeta. now rewrite Hbs, Hsz, Hf.
Qed.

Lemma read_after_write_witness :
  let s := run (OpMapMemory 32 1) (ctor 2 16) in
  let s' := snd (write 35 7 s) in
  write 35 7 s = (Return tt, s')
  /\ read 35 s' = (Return 7, s')
  /\ fetch 1 3 s' = Return 7.
Proof.
  cbn zeta.
  assert (Hw : write 35 7 (run (OpMapMemory 32 1) (ctor 2 16))
               = (Return tt,
                  snd (write 35 7 (run (OpMapMemory 32 1) (ctor 2 16)))))
    by (vm_compute; reflexivity).
  split; [exact Hw|].
  split; [exact (read_after_write 35 7 _ _ Hw) | vm_compute; reflexivity].
Defined.

(** *** The invariant *)

Lemma entry_ok_frame s s' m :
  bankSize s' = bankSize s ->
  length (banks s') = length (banks s) ->
  entry_ok s m -> entry_ok s' m.
Proof. unfold entry_ok. now intros -> ->. Qed.

Lemma wf_ctor num_banks bank_size :
  0 <= bank_size < 2 ^ 63 -> wf (ctor num_banks bank_size).
Proof.
  intros Hsz. unfold wf, ctor. cbn.
  split; [exact Hsz|]. split; [|split].
  - apply Forall_replicate. apply length_replicate.
  - constructor.
  - intros i j m1 m2 x Hi. now rewrite lookup_nil in Hi.
Qed.

Lemma wf_set_currentBank b s : wf s -> wf (set_currentBank b s).
Proof. unfold wf, set_currentBank. now cbn. Qed.

Lemma wf_store b off value s s' :
  store b off value s = (Return tt, s') -> wf s -> wf s'.
Proof.
  rewrite store_eq.
  destruct (banks s !! Z.to_nat b) as [row|] eqn:Hrow; [|discriminate].
  destruct (row !! Z.to_nat off) as [old|] eqn:Hold; [|discriminate].
  intros [= <-] (Hsz & Hrows & Hms & Hdis). unfold wf. cbn.
  split; [exact Hsz|]. split; [|split; [|exact Hdis]].
  - apply Forall_insert; [exact Hrows|].
    rewrite length_insert.
    rewrite Forall_forall in Hrows. apply Hrows.
    eapply list_elem_of_lookup_2. exact Hrow.
  - eapply Forall_impl; [exact Hms|]. intros m.
    apply entry_ok_frame; [reflexivity|]. cbn. apply length_insert.
Qed.

Lemma store_state b off value s :
  snd (store b off value s) = s
  \/ store b off value s = (Return tt, snd (store b off value s)).
Proof.
  rewrite store_eq.
  destruct (banks s !! Z.to_nat b) as [row|]; [|now left].
  destruct (row !! Z.to_nat off); [now right | now left].
Qed.

Lemma read_state address s : snd (read address s) = s.
Proof.
  destruct (first_containing address (mappings s))
    as [Hnone | (before & m & after & Hs & Hb & Hm)].
  - rewrite (read_none _ _ Hnone). unfold read_current.
    now destruct (_ <=? _).
  - rewrite (read_first _ _ _ _ _ Hs Hb Hm). unfold read_mapped.
    cbn zeta. now destruct (_ <=? _).
Qed.

Lemma wf_write address value s : wf s -> wf (snd (write address value s)).
Proof.
  intros Hwf.
  destruct (first_containing address (mappings s))
    as [Hnone | (before & m & after & Hs & Hb & Hm)].
  - rewrite (write_none _ _ _ Hnone). unfold write_current.
    destruct (_ <=? _); [exact Hwf|].
    destruct (store_state (currentBank s) address value s) as [-> | E];
      [exact Hwf | exact (wf_store _ _ _ _ _ E Hwf)].
  - rewrite (write_first _ _ _ _ _ _ Hs Hb Hm). unfold write_mapped.
    cbn zeta. destruct (readOnly m); [exact Hwf|].
    destruct (_ <=? _); [exact Hwf|].
    match goal with
    | |- wf (snd (store ?b ?o ?v ?s)) =>
        destruct (store_state b o v s) as [-> | E];
          [exact Hwf | exact (wf_store _ _ _ _ _ E Hwf)]
    end.
Qed.

(** On a well-formed table the test of [mapMemory] finds an overlap
    exactly when some guest address lies in both ranges. *)
Lemma overlap_test_sound address s m :
  0 <= address -> 0 <= bankSize s < 2 ^ 63 -> address < 65536 ->
  entry_ok s m ->
  overlap_test address (bankSize s) m = true
  <-> exists x, covers m x /\ new_range address (bankSize s) x.
Proof.
  intros Ha Hsz Ha' (_ & Hsize & Hbase & Htop & _).
  unfold overlap_test, contains, size_t_add, u64, covers, new_range.
  rewrite Z.mod_small by lia. rewrite Hsize in *.
  rewrite orb_true_iff, !andb_true_iff.
  rewrite !Z.leb_le, !Z.ltb_lt. split.
  - intros [[H1 H2] | [H1 H2]].
    + exists address. lia.
    + exists (baseAddr m). lia.
  - intros (x & Hx1 & Hx2).
    destruct (Z.le_gt_cases (baseAddr m) address); [left | right]; lia.
Qed.

Lemma no_overlap_test address s :
  0 <= address < 65536 -> wf s ->
  existsb (overlap_test address (bankSize s)) (mappings s) = true
  <-> overlaps_existing address s.
Proof.
  intros Ha (Hsz & _ & Hms & _). rewrite existsb_exists.
  unfold overlaps_existing. rewrite Forall_forall in Hms. split.
  - intros (m & Hin%list_elem_of_In & Ht).
    apply (overlap_test_sound address s m) in Ht;
      [|lia|exact Hsz|lia|now apply Hms].
    destruct Ht as (x & Hc & Hn). now exists m, x.
  - intros (m & x & Hin & Hc & Hn). exists m.
    split; [now apply list_elem_of_In|].
    apply overlap_test_sound; [lia|exact Hsz|lia|now apply Hms|].
    now exists x.
Qed.

Lemma wf_push address b s :
  0 <= address < 65536 -> 0 <= b ->
  wf s ->
  bad_bank b s = false ->
  existsb (overlap_test address (bankSize s)) (mappings s) = false ->
  (size_t_add address (bankSize s) >? 65535) = false ->
  u16 (bankSize s) = bankSize s
  /\ wf (push_mapping (mkMapping b address (bankSize s) false) s).
Proof.
  intros Ha Hb Hwf Hbank Hover Htop.
  pose proof Hwf as (Hsz & Hrows & Hms & Hdis).
  unfold size_t_add, u64 in Htop. rewrite Z.mod_small in Htop by lia.
  rewrite Z.gtb_ltb in Htop. apply Z.ltb_ge in Htop.
  unfold bad_bank in Hbank. apply Z.leb_gt in Hbank.
  split; [unfold u16; apply Z.mod_small; lia|].
  assert (Hnew : entry_ok s (mkMapping b address (bankSize s) false)).
  { unfold entry_ok. cbn. repeat split; lia. }
  unfold wf, push_mapping. cbn.
  split; [exact Hsz|]. split; [exact Hrows|]. split.
  - apply Forall_app. split; [|now constructor].
    eapply Forall_impl; [exact Hms|]. intros m.
    now apply entry_ok_frame.
  - assert (Hfresh : forall m x, m ∈ mappings s -> covers m x ->
              ~ covers (mkMapping b address (bankSize s) false) x).
    { intros m x Hin Hc Hc'.
      assert (overlaps_existing address s) as Ho by now exists m, x.
      apply no_overlap_test in Ho; [congruence | lia | exact Hwf]. }
    intros i j m1 m2 x Hi Hj H1 H2.
    apply lookup_snoc_Some in Hi as [[Hi1 Hi2] | [-> <-]],
          Hj as [[Hj1 Hj2] | [-> <-]].
    + eapply Hdis; eassumption.
    + exfalso. eapply Hfresh; [|exact H1|exact H2].
      eapply list_elem_of_lookup_2; eassumption.
    + exfalso. eapply Hfresh; [|exact H2|exact H1].
      eapply list_elem_of_lookup_2; eassumption.
    + reflexivity.
Qed.

Lemma wf_mapMemory address b s :
  0 <= address < 65536 -> 0 <= b ->
  wf s -> wf (snd (mapMemory address b s)).
Proof.
  intros Ha Hb Hwf. rewrite mapMemory_eq.
  destruct (bad_bank b s) eqn:Hbank; [exact Hwf|].
  destruct (existsb _ _) eqn:Hover; [exact Hwf|].
  destruct (_ >? _) eqn:Htop; [exact Hwf|].
  destruct (wf_push address b s Ha Hb Hwf Hbank Hover Htop) as [-> H].
  exact H.
Qed.

(** Every operation of the public interface preserves the invariant. *)
Lemma wf_run o s : op_typed o -> wf s -> wf (run o s).
Proof.
  destruct o as [b | address b | address | address value]; cbn;
    intros Ht Hwf.
  - rewrite switchBank_eq. destruct (bad_bank b s); [exact Hwf|].
    now apply wf_set_currentBank.
  - apply wf_mapMemory; [lia | lia | exact Hwf].
  - now rewrite read_state.
  - now apply wf_write.
Qed.

Lemma reachable_wf s : reachable s -> wf s.
Proof.
  induction 1 as [n bsz Hn Hsz | o s Hs IH Ht].
  - now apply wf_ctor.
  - now apply wf_run.
Qed.

(** *** Mapping a bank *)

(** C3: on a controller reached through its public interface,
    [mapMemory address b] throws exactly when [b] is not the number of
    a bank, or [address + bankSize] exceeds [0xFFFF], or the range
    [address, address + bankSize) shares a guest address with an
    entry of the table.  What it throws is a
    [MEMORY_ACCESS_VIOLATION] and the controller is as before;
    otherwise it returns, the table is the old table followed by the
    one entry [{b, address, bankSize, false}], and the banks, the
    current bank and the bank size are as before.  Before and after,
    no guest address is covered by two entries. *)
Theorem mapMemory_raises_exactly address b s :
  reachable s -> 0 <= address < 65536 -> 0 <= b < 256 ->
  let r := mapMemory address b s in
  ((exists e, fst r = Throw e) <->
     Z.of_nat (length (banks s)) <= b
     \/ address + bankSize s > 65535
     \/ overlaps_existing address s)
  /\ (forall e, fst r = Throw e ->
        getCode e = MEMORY_ACCESS_VIOLATION /\ snd r = s)
  /\ ((forall e, fst r <> Throw e) ->
        fst r = Return tt
        /\ mappings (snd r)
           = mappings s ++ [mkMapping b address (bankSize s) false]
        /\ banks (snd r) = banks s
        /\ currentBank (snd r) = currentBank s
        /\ bankSize (snd r) = bankSize s)
  /\ disjoint_table (mappings s)
  /\ disjoint_table (mappings (snd r)).
Proof.
  intros Hwf%reachable_wf Ha Hb. cbn zeta.
  pose proof (wf_mapMemory address b s Ha (proj1 Hb) Hwf) as Hwf'.
  pose proof Hwf as (Hsz & _ & _ & Hdis).
  pose proof Hwf' as (_ & _ & _ & Hdis').
  split; [|split; [|split; [|split; assumption]]];
    clear Hwf' Hdis'; rewrite mapMemory_eq.
  - destruct (bad_bank b s) eqn:Hbank.
    { split; [|eauto]. intros _. left. now apply Z.leb_le. }
    destruct (existsb _ _) eqn:Hover.
    { split; [|eauto]. intros _. right. right.
      now apply no_overlap_test. }
    destruct (_ >? _) eqn:Htop.
    { split; [|eauto]. intros _. right. left.
      unfold size_t_add, u64 in Htop.
      rewrite Z.mod_small in Htop by lia. lia. }
    split; [intros [e [=]]|]. intros [Hbad | [Hbig | Ho]]; exfalso.
    + apply Z.leb_gt in Hbank. lia.
    + unfold size_t_add, u64 in Htop.
      rewrite Z.mod_small in Htop by lia. lia.
    + apply no_overlap_test in Ho; [congruence | lia | exact Hwf].
  - intros e.
    destruct (bad_bank b s); [now intros [= <-]|].
    destruct (existsb _ _); [now intros [= <-]|].
    destruct (_ >? _); [now intros [= <-] | discriminate].
  - intros Hno.
    destruct (bad_bank b s) eqn:Hbank; [now edestruct Hno|].
    destruct (existsb _ _) eqn:Hover; [now edestruct Hno|].
    destruct (_ >? _) eqn:Htop; [now edestruct Hno|].
    destruct (wf_push address b s Ha (proj1 Hb) Hwf Hbank Hover Htop)
      as [-> _].
    cbn. repeat (split; [reflexivity|]). reflexivity.
Qed.

Lemma mapMemory_raises_exactly_witness :
  let s := run (OpMapMemory 0 1) (ctor 4 16384) in
  reachable s
  /\ (exists e, fst (mapMemory 8192 2 s) = Throw e)
  /\ (Z.of_nat (length (banks s)) <= 2
      \/ 8192 + bankSize s > 65535
      \/ overlaps_existing 8192 s).
Proof.
  cbn zeta.
  assert (Hr : reachable (run (OpMapMemory 0 1) (ctor 4 16384))).
  { apply reach_step; [apply reach_ctor; lia | cbn; lia]. }
  assert (He : exists e,
    fst (mapMemory 8192 2 (run (OpMapMemory 0 1) (ctor 4 16384)))
    = Throw e).
  { eexists. vm_compute. reflexivity. }
  split; [exact Hr|]. split; [exact He|].
  refine (proj1 (proj1 (mapMemory_raises_exactly 8192 2 _ Hr _ _)) He);
    lia.
Defined.

(** *** Read-only entries *)

(** C10: on a controller reached through its public interface no
    entry of the table is read-only, before and after any further
    operation, and [write] never throws the exception it reserves for
    a read-only mapping. *)
Theorem mappings_never_readOnly s :
  reachable s ->
  Forall (fun m => readOnly m = false) (mappings s)
  /\ (forall o, op_typed o ->
        Forall (fun m => readOnly m = false) (mappings (run o s)))
  /\ (forall address value e,
        fst (write address value s) = Throw e ->
        what e <> "Write to read-only memory").
Proof.
  intros Hr.
  assert (Hro : forall s0, reachable s0 ->
            Forall (fun m => readOnly m = false) (mappings s0)).
  { intros s0 (_ & _ & Hms & _)%reachable_wf.
    eapply Forall_impl; [exact Hms|]. now intros m [H _]. }
  split; [now apply Hro|]. split.
  - intros o Ht. apply Hro. now apply reach_step.
  - intros address value e.
    destruct (first_containing address (mappings s))
      as [Hnone | (before & m & after & Hs & Hb & Hm)].
    + rewrite (write_none _ _ _ Hnone). unfold write_current.
      destruct (_ <=? _); [now intros [= <-]|].
      destruct (store _ _ _ _) as [o s'] eqn:E. cbn. intros ->.
      now apply store_never_throws in E.
    + rewrite (write_first _ _ _ _ _ _ Hs Hb Hm). unfold write_mapped.
      cbn zeta.
      assert (readOnly m = false) as ->.
      { specialize (Hro s Hr). rewrite Forall_forall in Hro.
        apply Hro. rewrite Hs. apply list_elem_of_In, in_elt. }
      destruct (_ <=? _); [now intros [= <-]|].
      destruct (store _ _ _ _) as [o s'] eqn:E. cbn. intros ->.
      now apply store_never_throws in E.
Qed.

Lemma mappings_never_readOnly_witness :
  let s := run (OpWrite 3 9) (run (OpMapMemory 0 1) (ctor 4 16384)) in
  reachable s
  /\ Forall (fun m => readOnly m = false) (mappings s)
  /\ mappings s = [mkMapping 1 0 16384 false].
Proof.
  cbn zeta.
  assert (Hr : reachable
    (run (OpWrite 3 9) (run (OpMapMemory 0 1) (ctor 4 16384)))).
  { apply reach_step;
      [apply reach_step; [apply reach_ctor; lia | cbn; lia] | cbn; lia]. }
  split; [exact Hr|].
  split; [exact (proj1 (mappings_never_readOnly _ Hr))|].
  vm_compute. reflexivity.
Defined.

(** *** Read after write, with calls in between *)

(** An entry added at the end of the table leaves the addresses
    outside its range where they were. *)
Lemma read_push_outside x new s :
  contains new x = false ->
  read x (push_mapping new s) = (fst (read x s), push_mapping new s).
Proof.
  intros Hnew.
  destruct (first_containing x (mappings s))
    as [Hnone | (before & m & after & Hs & Hb & Hm)].
  - rewrite (read_none x s Hnone).
    rewrite (read_none x (push_mapping new s)).
    + unfold read_current.
      change (bankSize (push_mapping new s)) with (bankSize s).
      now destruct (bankSize s <=? x).
    + cbn. apply Forall_app. split; [exact Hnone|].
      constructor; [exact Hnew | constructor].
  - rewrite (read_first x before m after s Hs Hb Hm).
    rewrite (read_first x before m (after ++ [new]) (push_mapping new s));
      [| cbn; rewrite Hs, <- app_assoc; reflexivity
       | exact Hb | exact Hm].
    unfold read_mapped. cbn zeta.
    change (bankSize (push_mapping new s)) with (bankSize s).
    now destruct (bankSize s <=? u16 (x - baseAddr m)).
Qed.

(** A [mapMemory] that throws, or that maps a range without [x],
    leaves [read x] as it was. *)
Lemma mapMemory_outside address b x s :
  wf s -> 0 <= address < 65536 -> 0 <= b ->
  (fst (mapMemory address b s) = Return tt ->
   ~ new_range address (bankSize s) x) ->
  read x (snd (mapMemory address b s))
  = (fst (read x s), snd (mapMemory address b s)).
Proof.
  intros Hwf Ha Hb. rewrite mapMemory_eq.
  assert (Hsame : read x s = (fst (read x s), s)).
  { rewrite <- (read_state x s) at 3. apply surjective_pairing. }
  destruct (bad_bank b s) eqn:Hbank; [intros _; exact Hsame|].
  destruct (existsb _ _) eqn:Hover; [intros _; exact Hsame|].
  destruct (_ >? _) eqn:Htop; [intros _; exact Hsame|].
  destruct (wf_push address b s Ha Hb Hwf Hbank Hover Htop) as [-> _].
  cbn [fst snd]. intros Hout. apply read_push_outside.
  unfold contains. cbn. unfold new_range in Hout.
  specialize (Hout eq_refl).
  destruct (Z.leb_spec address x), (Z.ltb_spec x (address + bankSize s));
    cbn; try reflexivity. lia.
Qed.

Lemma undisturbed_read a v ops :
  forall st,
    wf st -> Forall op_typed ops -> undisturbed a ops st ->
    read a st = (Return v, st) ->
    read a (run_all ops st) = (Return v, run_all ops st).
Proof.
  induction ops as [|o ops IH]; intros st Hwf Ht Hu Hr; [exact Hr|].
  apply Forall_cons in Ht as [Hto Ht]. destruct Hu as [Ho Hu].
  change (run_all (o :: ops) st) with (run_all ops (run o st)).
  apply IH; [now apply wf_run | exact Ht | exact Hu |].
  destruct o as [b | address b | x | x value]; cbn in Ho |- *;
    try contradiction.
  - rewrite (mapMemory_outside address b a st Hwf);
      [now rewrite Hr | apply Hto | apply Hto | exact Ho].
  - now rewrite read_state.
Qed.

(** C6, as amended: on a controller reached through its public
    interface, after a [write a v] that returns, a [read a] returns
    [v] when every call in between is a [read], a [mapMemory] that
    throws, or a [mapMemory] whose range [address, address + bankSize)
    does not hold [a]; this is so for mapped and unmapped addresses
    alike. *)
Theorem read_after_write_until_remapped a v s ops :
  reachable s -> Forall op_typed ops ->
  fst (write a v s) = Return tt ->
  undisturbed a ops (snd (write a v s)) ->
  let s2 := run_all ops (snd (write a v s)) in
  read a s2 = (Return v, s2).
Proof.
  intros Hr%reachable_wf Ht Hw Hu. cbn zeta.
  apply undisturbed_read; [now apply wf_write | exact Ht | exact Hu |].
  apply (read_after_write a v s).
  rewrite <- Hw. apply surjective_pairing.
Qed.

Lemma read_after_write_until_remapped_witness :
  let ops := [OpRead 3; OpMapMemory 32 1; OpMapMemory 0 7] in
  let s2 := run_all ops (snd (write 5 7 (ctor 2 16))) in
  read 5 s2 = (Return 7, s2)
  /\ List.length (mappings s2) = 1%nat.
Proof.
  cbn zeta. split; [|vm_compute; reflexivity].
  apply (read_after_write_until_remapped 5 7 (ctor 2 16)
           [OpRead 3; OpMapMemory 32 1; OpMapMemory 0 7]).
  - apply reach_ctor; lia.
  - repeat constructor; cbn; lia.
  - vm_compute. reflexivity.
  - cbn [undisturbed]. split; [exact I|]. split.
    + intros _ [H _]. vm_compute in H. exact (H eq_refl).
    + split; [|exact I]. vm_compute. discriminate.
Defined.

(** C6 as stated fails: a [mapMemory] is neither a write nor a bank
    switch, yet after [write(5, 7)] on a fresh controller of two banks
    of 16 bytes and [mapMemory(0, 1)], address 5 resolves to bank 1,
    and [read(5)] returns the 0 stored there. *)
Lemma later_mapping_hides_write :
  ~ read_after_write_coherent 5 7 (ctor 2 16) [OpMapMemory 0 1].
Proof.
  unfold read_after_write_coherent. intros H.
  specialize (H eq_refl eq_refl). vm_compute in H. discriminate H.
Qed.

End BankController.

(** ** The enhanced step *)

Section EnhancedStep.

Import Cpu.

Variable base_Emulate8080p : Z -> M CPU8080 Z.
Variable duration : Z.

Local Abbreviation step := (Emulate8080p base_Emulate8080p duration).
Local Abbreviation slow := (execute_normally base_Emulate8080p duration).

Implicit Types (cpu : EnhancedCPU8080) (cached : CachedInstruction).

(** After the call of the base class, the rest of the step always
    returns, with the base-class cycle count, and only touches the
    caches, the tracer, the profiler and guest memory. *)
Lemma execute_normally_shape debug pc0 cpu :
  match base_Emulate8080p debug (base cpu) with
  | (Return c, b') =>
      exists cpu',
        slow debug pc0 cpu = (Return (u32 (u64 c)), cpu')
        /\ core_unchanged (set_base b' cpu) cpu'
  | (Throw e, b') => slow debug pc0 cpu = (Throw e, set_base b' cpu)
  | (Undefined, b') => slow debug pc0 cpu = (Undefined, set_base b' cpu)
  end.
Proof.
  unfold execute_normally, bind, on_base.
  destruct (base_Emulate8080p debug (base cpu)) as [[c|e|] b'];
    [|reflexivity|reflexivity].
  unfold when, opcode_at, bind, gets, modify, ret, on_memoryCache,
    Cache.flush, try_replace, try_catch, modify.
  cbn -[u32 u64 Z.ltb Z.leb Z.gtb Z.eqb Cache.flush_from].
  repeat match goal with
         | |- context [if ?b then _ else _] => destruct b
         end;
    cbn -[u32 u64 Z.ltb Z.leb Z.gtb Z.eqb Cache.flush_from];
    eexists; (split; [reflexivity | now repeat split]).
Qed.

Lemma replay_shape cached pc0 cpu :
  exists cpu',
    replay cached pc0 cpu = (Return (u32 (cycles cached)), cpu')
    /\ state (base cpu') = apply_cached cached (state (base cpu))
    /\ scheduler_timer (base cpu') = scheduler_timer (base cpu)
    /\ intController cpu' = intController cpu
    /\ cacheFlushCounter cpu' = cacheFlushCounter cpu
    /\ memoryCache cpu' = memoryCache cpu
    /\ memory (base cpu') = memory (base cpu).
Proof.
  unfold replay, when, opcode_at, bind, gets, modify, ret.
  cbn -[u32]. destruct (profilingEnabled cpu); cbn -[u32];
    eexists; (split; [reflexivity | now repeat split]).
Qed.

Lemma step_slow debug cpu :
  debug <> 0 \/ fast_path_hit cpu = false ->
  step debug cpu = slow debug (S8080.pc (state (base cpu))) cpu.
Proof.
  intros H. unfold Emulate8080p, fast_path_hit, bind, gets, opcode_at in *.
  cbn in *. destruct (Z.eqb_spec debug 0) as [->|Hd]; [|reflexivity].
  destruct H as [H|H]; [congruence|].
  destruct (instructionCache cpu !! _) as [cached|]; [|reflexivity].
  now rewrite H.
Qed.

Lemma step_fast cpu cached :
  instructionCache cpu !! S8080.pc (state (base cpu)) = Some cached ->
  affects_flags cached = false ->
  Decoder.memory_access
    (Decoder.INSTRUCTION_TABLE
       (memory (base cpu) (S8080.pc (state (base cpu)))))
  = false ->
  step 0 cpu = replay cached (S8080.pc (state (base cpu))) cpu.
Proof.
  intros Hc Hf Hm. unfold Emulate8080p, bind, gets, opcode_at.
  cbn. now rewrite Hc, Hf, Hm.
Qed.

Lemma fast_path_hit_true cpu :
  fast_path_hit cpu = true ->
  exists cached,
    instructionCache cpu !! S8080.pc (state (base cpu)) = Some cached
    /\ affects_flags cached = false
    /\ Decoder.memory_access
         (Decoder.INSTRUCTION_TABLE
            (memory (base cpu) (S8080.pc (state (base cpu)))))
       = false.
Proof.
  unfold fast_path_hit.
  destruct (instructionCache cpu !! _) as [cached|]; [|discriminate].
  intros [H1 H2]%andb_true_iff. exists cached.
  now rewrite negb_true_iff in H1, H2.
Qed.

(** X2: a step leaves the interrupt queue of the controller as it
    was, on the fast path, on the normal path and when the base class
    throws. *)
Lemma Emulate8080p_never_queues debug cpu :
  intController (snd (Emulate8080p base_Emulate8080p duration debug cpu))
  = intController cpu.
Proof.
  destruct (Z.eqb_spec debug 0) as [->|Hd].
  - destruct (fast_path_hit cpu) eqn:Hit.
    + apply fast_path_hit_true in Hit as (cached & Hc & Hf & Hm).
      rewrite (step_fast _ _ Hc Hf Hm).
      destruct (replay_shape cached (S8080.pc (state (base cpu))) cpu)
        as (cpu' & -> & _ & _ & Hq & _). exact Hq.
    + rewrite step_slow by now right.
      pose proof (execute_normally_shape 0
                    (S8080.pc (state (base cpu))) cpu) as Hs.
      destruct (base_Emulate8080p 0 (base cpu)) as [[c|e|] b'].
      * destruct Hs as (cpu' & -> & Hcore). now apply Hcore.
      * now rewrite Hs.
      * now rewrite Hs.
  - rewrite step_slow by now left.
    pose proof (execute_normally_shape debug
                  (S8080.pc (state (base cpu))) cpu) as Hs.
    destruct (base_Emulate8080p debug (base cpu)) as [[c|e|] b'].
    + destruct Hs as (cpu' & -> & Hcore). now apply Hcore.
    + now rewrite Hs.
    + now rewrite Hs.
Qed.

(** What a normal execution shows the host is what the base class
    produced. *)
Lemma observe_slow debug pc0 cpu :
  observe (slow debug pc0 cpu)
  = match base_Emulate8080p debug (base cpu) with
    | (Return c, b') => (Return (u32 (u64 c)), state b')
    | (Throw e, b') => (Throw e, state b')
    | (Undefined, b') => (Undefined, state b')
    end.
Proof.
  pose proof (execute_normally_shape debug pc0 cpu) as Hs.
  destruct (base_Emulate8080p debug (base cpu)) as [[c|e|] b'].
  - destruct Hs as (cpu' & -> & Hst & _). unfold observe. cbn.
    now rewrite Hst.
  - now rewrite Hs.
  - now rewrite Hs.
Qed.

(** X26: when the base-class step does not depend on its debug
    argument and the instruction cache gives no fast-path hit at the
    current PC, a step with any debug value ends the same way (same
    cycle count or same exception) and leaves the same [State8080]
    as a step with debug zero. *)
Theorem debug_observational_without_cache_hit debug cpu :
  (forall d1 d2 b, base_Emulate8080p d1 b = base_Emulate8080p d2 b) ->
  fast_path_hit cpu = false ->
  debug_observational base_Emulate8080p duration debug cpu.
Proof.
  intros Hbase Hmiss. unfold debug_observational.
  rewrite (step_slow 0) by now right.
  destruct (Z.eqb_spec debug 0) as [->|Hd].
  - now rewrite step_slow by now right.
  - rewrite step_slow by now left.
    rewrite !observe_slow. now rewrite (Hbase debug 0).
Qed.

(** C4, on the fast path: a step that finds a usable cache entry
    returns the cached cycle count and leaves [scheduler_timer], the
    flush counter and the interrupt queue as they were, whatever the
    base-class step does. *)
Theorem fast_path_credits_no_cycles cpu cached :
  instructionCache cpu !! S8080.pc (state (base cpu)) = Some cached ->
  affects_flags cached = false ->
  Decoder.memory_access
    (Decoder.INSTRUCTION_TABLE
       (memory (base cpu) (S8080.pc (state (base cpu)))))
  = false ->
  let r := Emulate8080p base_Emulate8080p duration 0 cpu in
  fst r = Return (u32 (cycles cached))
  /\ scheduler_timer (base (snd r)) = scheduler_timer (base cpu)
  /\ cacheFlushCounter (snd r) = cacheFlushCounter cpu
  /\ intController (snd r) = intController cpu.
Proof.
  intros Hc Hf Hm. cbn zeta. rewrite (step_fast _ _ Hc Hf Hm).
  destruct (replay_shape cached (S8080.pc (state (base cpu))) cpu)
    as (cpu' & -> & _ & Ht & Hq & Hn & _).
  now repeat split.
Qed.

End EnhancedStep.

(** ** The step on a concrete program *)

Section LoopProgram.

Import Cpu.

(** The loop [INX B; JMP 0] after its first two steps: PC is back at 0,
    C holds 1, and the cache holds the entry that the first step stored
    for address 0. *)
Lemma loop_after_two_steps :
  let cpu := after_steps 2 loop_cpu in
  S8080.pc (state (base cpu)) = 0
  /\ S8080.c (state (base cpu)) = 1
  /\ instructionCache cpu !! 0 = Some (mkCached 1 5 false 0 0 1 0 0 0 0)
  /\ fast_path_hit cpu = true.
Proof. vm_compute. repeat split. Qed.

(** The third step with the debug flag set executes [INX B]; without it
    the cached registers are replayed. *)
Lemma loop_third_step :
  let cpu := after_steps 2 loop_cpu in
  let with_debug := Emulate8080p fragment_Emulate8080p 0 1 cpu in
  let without := Emulate8080p fragment_Emulate8080p 0 0 cpu in
  fst with_debug = Return 5
  /\ fst without = Return 5
  /\ S8080.c (state (base (snd with_debug))) = 2
  /\ S8080.c (state (base (snd without))) = 1.
Proof. vm_compute. repeat split. Qed.

(** C2, at the failing input: after two steps of the loop the cache
    holds the entry for PC 0, stored when [INX B] was first executed.
    The third step with debug set executes [INX B] and leaves C = 2;
    with debug zero it takes the fast path and replays the registers
    of the first execution, leaving C = 1.  Both return 5 cycles. *)
Theorem debug_flag_changes_registers :
  let cpu := after_steps 2 loop_cpu in
  let with_debug := Emulate8080p fragment_Emulate8080p 0 1 cpu in
  let without := Emulate8080p fragment_Emulate8080p 0 0 cpu in
  fast_path_hit cpu = true
  /\ fst with_debug = Return 5
  /\ fst without = Return 5
  /\ S8080.c (state (base (snd with_debug))) = 2
  /\ S8080.c (state (base (snd without))) = 1
  /\ ~ debug_observational fragment_Emulate8080p 0 1 cpu.
Proof.
  cbn zeta. repeat (split; [vm_compute; reflexivity|]).
  unfold debug_observational, observe. intros H.
  apply (f_equal (fun o => S8080.c (snd o))) in H.
  vm_compute in H. discriminate H.
Qed.

Lemma debug_observational_without_cache_hit_witness :
  fast_path_hit loop_cpu = false
  /\ debug_observational fragment_Emulate8080p 0 1 loop_cpu
  /\ fst (Emulate8080p fragment_Emulate8080p 0 1 loop_cpu) = Return 5.
Proof.
  assert (Hmiss : fast_path_hit loop_cpu = false)
    by (vm_compute; reflexivity).
  split; [exact Hmiss|]. split.
  - apply debug_observational_without_cache_hit;
      [reflexivity | exact Hmiss].
  - vm_compute. reflexivity.
Defined.

Lemma fast_path_credits_no_cycles_witness :
  let cpu := after_steps 2 loop_cpu in
  let r := Emulate8080p fragment_Emulate8080p 0 0 cpu in
  fst r = Return 5
  /\ scheduler_timer (base (snd r)) = scheduler_timer (base cpu)
  /\ IntCtl.int_queue (intController (snd r)) = [].
Proof.
  cbn zeta.
  destruct (fast_path_credits_no_cycles fragment_Emulate8080p 0
              (after_steps 2 loop_cpu)
              (mkCached 1 5 false 0 0 1 0 0 0 0))
    as (Hret & Htimer & _ & Hqueue);
    [vm_compute; reflexivity | reflexivity | vm_compute; reflexivity |].
  split; [exact Hret|]. split; [exact Htimer|].
  rewrite Hqueue. vm_compute. reflexivity.
Defined.

End LoopProgram.

(** ** Bank switching and the byte cache *)

Section BankSwitch.

Import Cpu.


(** X3: with a bank number that does not exist, [switchBank] throws a
    [MEMORY_ACCESS_VIOLATION] and the controller is as before; with one
    that exists, it returns and that bank is the current one. *)
Lemma switchBank_outcome b (s : Bank.MemoryBankController) :
  (Z.of_nat (List.length (Bank.banks s)) <= b ->
   exists msg, Bank.switchBank b s = (Throw (Bank.violation msg), s))
  /\ (b < Z.of_nat (List.length (Bank.banks s)) ->
      fst (Bank.switchBank b s) = Return tt
      /\ Bank.currentBank (snd (Bank.switchBank b s)) = b).
Proof.
  rewrite switchBank_eq. unfold Bank.bad_bank.
  destruct (Z.leb_spec (Z.of_nat (List.length (Bank.banks s))) b); split;
    try lia; intros _; [eauto | now split].
Qed.


End BankSwitch.

(** ** Resolution on a concrete table *)

Section ResolutionExamples.

Import Bank.

(** Banks of 16 bytes; bank 1 mapped at 32 and bank 2 at 64. *)
Example resolve_mapped_address :
  let s := run (OpMapMemory 64 2) (run (OpMapMemory 32 1) (ctor 4 16)) in
  mappings s = [mkMapping 1 32 16 false; mkMapping 2 64 16 false]
  /\ fetch 2 5 (snd (write 69 9 s)) = Return 9
  /\ fst (read 69 (snd (write 69 9 s))) = Return 9.
Proof. vm_compute. repeat split. Qed.

Example resolve_unmapped_address :
  let s := run (OpSwitchBank 3) (run (OpMapMemory 32 1) (ctor 4 16)) in
  fetch 3 5 (snd (write 5 9 s)) = Return 9
  /\ read 20 s = (Throw (violation "Address out of range"), s).
Proof. vm_compute. repeat split. Qed.

End ResolutionExamples.

(** ** Byte cache *)

Section ByteCache.

Import Cache.

Implicit Types (v : View) (en : CacheEntry).

Lemma slot_mod addr : slot addr = addr mod 256.
Proof.
  unfold slot, CACHE_SIZE. change (256 - 1) with (Z.ones 8).
  now rewrite Z.land_ones by lia.
Qed.

Lemma slot_lt addr : (Z.to_nat (slot addr) < 256)%nat.
Proof.
  rewrite slot_mod. pose proof (Z.mod_pos_bound addr 256). lia.
Qed.

Lemma slot_inj_nat a1 a2 :
  Z.to_nat (slot a1) = Z.to_nat (slot a2) <-> slot a1 = slot a2.
Proof.
  rewrite !slot_mod.
  pose proof (Z.mod_pos_bound a1 256). pose proof (Z.mod_pos_bound a2 256).
  lia.
Qed.

Lemma cache_wf_ctor mem : wf (mkView ctor mem).
Proof.
  split; [reflexivity|]. intros i en Hi Hv. cbn in Hi.
  apply lookup_replicate in Hi as [-> _]. discriminate.
Qed.

Lemma cache_slot_entry v addr :
  wf v -> exists en, cache v !! Z.to_nat (slot addr) = Some en.
Proof.
  intros [Hlen _]. apply lookup_lt_is_Some_2. rewrite Hlen.
  apply slot_lt.
Qed.

(** [read] on the entry [en] found in the slot of [addr]. *)
Lemma cache_read_entry v addr en :
  cache v !! Z.to_nat (slot addr) = Some en ->
  read addr v
  = if valid en && (address en =? addr) then (Return (value en), v)
    else
      let v1 := if valid en && dirty en
                then set_memory (address en) (value en) v else v in
      (Return (memory v1 addr),
       set_entry (slot addr) (mkEntry addr (memory v1 addr) true false) v1).
Proof.
  intros Hen. unfold read, entry_at, bind, gets, unchecked, modify, ret.
  fold (slot addr). cbn. rewrite Hen. cbn.
  destruct (valid en && (address en =? addr)); [reflexivity|].
  now destruct (valid en && dirty en).
Qed.

Lemma cache_write_entry v addr val :
  wf v ->
  write addr val v
  = (Return tt, set_entry (slot addr) (mkEntry addr val true true) v).
Proof.
  intros Hwf. destruct (cache_slot_entry v addr Hwf) as [en Hen].
  unfold write, try_replace, try_catch, entry_at, bind, gets, unchecked,
    modify, ret.
  fold (slot addr). cbn. now rewrite Hen.
Qed.

(** The byte seen at [x] after slot [slot addr] has been given the
    entry [new]. *)
Lemma visible_set_entry v addr new x :
  wf v ->
  visible (set_entry (slot addr) new v) x
  = if decide (slot x = slot addr)
    then (if valid new && (address new =? x) then value new
          else memory v x)
    else visible v x.
Proof.
  intros [Hlen _]. unfold visible, set_entry. cbn.
  destruct (decide (slot x = slot addr)) as [->|Hne].
  - rewrite list_lookup_insert_eq; [reflexivity|].
    rewrite Hlen. apply slot_lt.
  - rewrite list_lookup_insert_ne; [reflexivity|].
    rewrite slot_inj_nat. congruence.
Qed.

Lemma cache_wf_set_entry v addr new :
  wf v ->
  (valid new = true ->
   slot (address new) = slot addr
   /\ (dirty new = false -> value new = memory v (address new))) ->
  wf (set_entry (slot addr) new v).
Proof.
  intros [Hlen Hen] Hnew. split; cbn.
  - now rewrite length_insert.
  - intros i en Hi Hv.
    destruct (decide (i = Z.to_nat (slot addr))) as [->|Hne].
    + rewrite list_lookup_insert_eq in Hi
        by (rewrite Hlen; apply slot_lt).
      injection Hi as <-. destruct (Hnew Hv) as [Hs Hc].
      split; [now rewrite Hs | exact Hc].
    + rewrite list_lookup_insert_ne in Hi by congruence.
      now apply Hen.
Qed.

(** Writing a dirty entry back keeps the invariant and what every
    address shows. *)
Lemma write_back_entry v addr en :
  wf v ->
  cache v !! Z.to_nat (slot addr) = Some en ->
  valid en = true ->
  let v1 := set_memory (address en) (value en) v in
  wf v1
  /\ (forall x, x <> address en -> memory v1 x = memory v x)
  /\ memory v1 (address en) = value en
  /\ (forall x, visible v1 x = visible v x).
Proof.
  intros Hwf Hen Hv. pose proof Hwf as [Hlen Hall]. cbn zeta.
  destruct (Hall _ _ Hen Hv) as [Hslot _].
  assert (Hne : forall x, x <> address en ->
            mem_set (address en) (value en) (memory v) x = memory v x).
  { intros x Hx. unfold mem_set. now destruct (Z.eqb_spec x (address en)). }
  assert (Heq : mem_set (address en) (value en) (memory v) (address en)
                = value en).
  { unfold mem_set. now rewrite Z.eqb_refl. }
  split; [|split; [exact Hne | split; [exact Heq|]]].
  - split; [exact Hlen|]. cbn. intros i en' Hi Hv'.
    destruct (Hall _ _ Hi Hv') as [Hs Hc]. split; [exact Hs|].
    intros Hd. destruct (Z.eq_dec (address en') (address en)) as [E|E].
    + assert (en' = en) as ->; [|now rewrite Heq].
      rewrite E, Hslot in Hs. subst i. congruence.
    + rewrite Hne by exact E. now apply Hc.
  - intros x. unfold visible. cbn.
    destruct (cache v !! Z.to_nat (slot x)) as [en'|] eqn:Hx.
    + destruct (valid en' && (address en' =? x)) eqn:Hhit; [reflexivity|].
      destruct (Z.eq_dec x (address en)) as [->|E]; [|now apply Hne].
      rewrite Hslot in Hx. rewrite Hen in Hx. injection Hx as <-.
      now rewrite Hv, Z.eqb_refl in Hhit.
    + destruct (Z.eq_dec x (address en)) as [->|E]; [|now apply Hne].
      rewrite Hslot in Hx. congruence.
Qed.

Lemma visible_hit v addr en :
  cache v !! Z.to_nat (slot addr) = Some en ->
  valid en && (address en =? addr) = true ->
  visible v addr = value en.
Proof. intros Hen Hhit. unfold visible. now rewrite Hen, Hhit. Qed.

Lemma visible_miss v addr en :
  cache v !! Z.to_nat (slot addr) = Some en ->
  valid en && (address en =? addr) = false ->
  visible v addr = memory v addr.
Proof. intros Hen Hhit. unfold visible. now rewrite Hen, Hhit. Qed.

(** The state in which [read] loads a missing byte: the entry in the
    slot has been written back when it was dirty. *)
Lemma before_load v addr en :
  wf v ->
  cache v !! Z.to_nat (slot addr) = Some en ->
  valid en && (address en =? addr) = false ->
  let v1 := if valid en && dirty en
            then set_memory (address en) (value en) v else v in
  wf v1
  /\ cache v1 = cache v
  /\ memory v1 addr = memory v addr
  /\ (forall x, visible v1 x = visible v x)
  /\ (valid en = true -> memory v1 (address en) = value en).
Proof.
  intros Hwf Hen Hmiss. cbn zeta.
  destruct (valid en) eqn:Hv; cbn in *.
  - apply Z.eqb_neq in Hmiss. destruct (dirty en) eqn:Hd.
    + destruct (write_back_entry v addr en Hwf Hen Hv)
        as (Hwf1 & Hne & Heq & Hvis).
      split; [exact Hwf1|]. split; [reflexivity|].
      split; [apply Hne; congruence|]. split; [exact Hvis | now intros _].
    + split; [exact Hwf|]. split; [reflexivity|]. split; [reflexivity|].
      split; [reflexivity|]. intros _. destruct Hwf as [_ Hall].
      symmetry. now apply (Hall _ _ Hen Hv).
  - split; [exact Hwf|]. split; [reflexivity|]. split; [reflexivity|].
    split; [reflexivity | discriminate].
Qed.

Lemma cache_read_visible v addr :
  wf v ->
  exists v',
    read addr v = (Return (visible v addr), v')
    /\ wf v'
    /\ (forall x, visible v' x = visible v x).
Proof.
  intros Hwf. destruct (cache_slot_entry v addr Hwf) as [en Hen].
  rewrite (cache_read_entry v addr en Hen).
  destruct (valid en && (address en =? addr)) eqn:Hhit.
  - exists v. rewrite (visible_hit v addr en Hen Hhit).
    split; [reflexivity|]. split; [exact Hwf | reflexivity].
  - destruct (before_load v addr en Hwf Hen Hhit)
      as (Hwf1 & Hc1 & Hm1 & Hvis1 & Hback).
    cbn zeta.
    set (v1 := if valid en && dirty en
               then set_memory (address en) (value en) v else v) in *.
    eexists. split; [|split].
    + rewrite Hm1, (visible_miss v addr en Hen Hhit). reflexivity.
    + apply cache_wf_set_entry; [exact Hwf1|]. cbn. intros _.
      split; [reflexivity | now intros _].
    + intros x. rewrite visible_set_entry by exact Hwf1. cbn.
      rewrite <- Hvis1.
      destruct (decide (slot x = slot addr)) as [Hs|Hs]; [|reflexivity].
      assert (Hen1 : cache v1 !! Z.to_nat (slot x) = Some en)
        by now rewrite Hc1, Hs.
      destruct (Z.eqb_spec addr x) as [<-|Hx].
      * rewrite <- Hm1. symmetry. now apply (visible_miss v1 addr en).
      * destruct (valid en && (address en =? x)) eqn:Hhx.
        -- rewrite (visible_hit v1 x en Hen1 Hhx).
           apply andb_true_iff in Hhx as [Hv Hx'%Z.eqb_eq].
           rewrite <- Hx'. now apply Hback.
        -- symmetry. now apply (visible_miss v1 x en).
Qed.

(** X4: on a well-formed cache, [read] returns the byte visible at the
    address, keeps the invariant and changes the byte visible at no
    address, whether it hits or loads the entry. *)
Theorem cache_read_is_transparent v addr :
  wf v ->
  exists v',
    read addr v = (Return (visible v addr), v')
    /\ wf v'
    /\ (forall x, visible v' x = visible v x).
Proof. apply cache_read_visible. Qed.

Lemma cache_read_is_transparent_witness :
  exists v',
    read 5 (mkView ctor mem_zero) = (Return 0, v')
    /\ wf v'.
Proof.
  destruct (cache_read_is_transparent (mkView ctor mem_zero) 5
              (cache_wf_ctor mem_zero)) as (v' & Hr & Hwf & _).
  exists v'. split; [exact Hr | exact Hwf].
Defined.

Lemma wf_after_write v addr val :
  wf v -> wf (set_entry (slot addr) (mkEntry addr val true true) v).
Proof.
  intros Hwf. apply cache_wf_set_entry; [exact Hwf|]. cbn.
  intros _. split; [reflexivity | discriminate].
Qed.

(** X5: on a well-formed cache, [write] returns, keeps the invariant
    and leaves memory untouched; a [read] of the same address then
    returns the byte written without changing anything, and every
    address of another slot shows what it showed before. *)
Theorem cache_write_then_read v addr val :
  wf v ->
  let v1 := snd (write addr val v) in
  write addr val v = (Return tt, v1)
  /\ wf v1
  /\ memory v1 = memory v
  /\ read addr v1 = (Return val, v1)
  /\ (forall x, slot x <> slot addr -> visible v1 x = visible v x).
Proof.
  intros Hwf. cbn zeta. rewrite (cache_write_entry v addr val Hwf). cbn [snd].
  pose proof (wf_after_write v addr val Hwf) as Hwf1.
  split; [reflexivity|]. split; [exact Hwf1|]. split; [reflexivity|].
  split.
  - erewrite cache_read_entry.
    2:{ cbn. apply list_lookup_insert_eq. destruct Hwf as [-> _].
        apply slot_lt. }
    cbn. now rewrite Z.eqb_refl.
  - intros x Hx. rewrite visible_set_entry by exact Hwf.
    now destruct (decide (slot x = slot addr)).
Qed.

Lemma cache_write_then_read_witness :
  let v1 := snd (write 300 7 (mkView ctor mem_zero)) in
  read 300 v1 = (Return 7, v1) /\ memory v1 300 = 0.
Proof.
  cbn zeta.
  destruct (cache_write_then_read (mkView ctor mem_zero) 300 7
              (cache_wf_ctor mem_zero)) as (_ & _ & Hm & Hr & _).
  split; [exact Hr | now rewrite Hm].
Defined.

(** *** Flushing *)

Lemma flush_from_cache es : forall pre i v,
  cache v = pre ++ es -> length pre = i ->
  cache (flush_from i es v) = pre ++ map clean es.
Proof.
  induction es as [|en es IH]; intros pre i v Hc Hi; cbn [flush_from map].
  - exact Hc.
  - rewrite (IH (pre ++ [clean en]) (S i)).
    + now rewrite <- app_assoc.
    + unfold flush_entry, clean.
      destruct (valid en && dirty en); cbn.
      * rewrite Hc, <- Hi. rewrite insert_app_r_alt by lia.
        rewrite Nat.sub_diag. cbn. now rewrite <- app_assoc.
      * rewrite Hc. now rewrite <- app_assoc.
    + rewrite length_app. cbn. lia.
Qed.

Lemma flush_from_memory_other es : forall i v x,
  (forall en, en ∈ es -> valid en && dirty en = true -> address en <> x) ->
  memory (flush_from i es v) x = memory v x.
Proof.
  induction es as [|en es IH]; intros i v x Hno; cbn [flush_from];
    [reflexivity|].
  rewrite IH by (intros en' Hin; apply Hno; now right).
  unfold flush_entry. destruct (valid en && dirty en) eqn:Hd; [|reflexivity].
  cbn. unfold mem_set.
  destruct (Z.eqb_spec x (address en)) as [->|]; [|reflexivity].
  exfalso. eapply Hno; [left | exact Hd | reflexivity].
Qed.

Lemma flush_from_memory_hit es : forall i v x j en,
  (forall k en', es !! k = Some en' -> valid en' = true ->
     Z.to_nat (slot (address en')) = (i + k)%nat) ->
  es !! j = Some en ->
  valid en = true -> dirty en = true -> address en = x ->
  memory (flush_from i es v) x = value en.
Proof.
  induction es as [|en0 es IH]; intros i v x j en Hslots Hj Hv Hd Hx;
    [now rewrite lookup_nil in Hj|].
  cbn [flush_from]. destruct j as [|j]; cbn in Hj.
  - injection Hj as ->.
    rewrite flush_from_memory_other.
    + unfold flush_entry. rewrite Hv, Hd. cbn. unfold mem_set.
      now rewrite Hx, Z.eqb_refl.
    + intros en' [k Hk]%list_elem_of_lookup [Hv' _]%andb_true_iff Hx'.
      pose proof (Hslots 0%nat en eq_refl Hv) as H0.
      pose proof (Hslots (S k) en' Hk Hv') as H1.
      rewrite Hx', <- Hx in H1. lia.
  - apply (IH (S i) _ x j en); try assumption.
    intros k en' Hk Hv'. rewrite (Hslots (S k) en' Hk Hv'). lia.
Qed.

Lemma has_dirty_clean es : has_dirty (map clean es) = false.
Proof.
  unfold has_dirty. induction es as [|en es IH]; [reflexivity|].
  cbn. rewrite IH, orb_false_r. unfold clean.
  destruct (valid en && dirty en) eqn:E; [|exact E].
  cbn. apply andb_false_r.
Qed.

Lemma flush_eq v : flush v = (Return tt, flush_from 0 (cache v) v).
Proof. reflexivity. Qed.

Lemma flush_memory_visible v x :
  wf v -> memory (flush_from 0 (cache v) v) x = visible v x.
Proof.
  intros Hwf. pose proof Hwf as [Hlen Hall].
  destruct (cache_slot_entry v x Hwf) as [en Hen].
  assert (Hother : forall en', en' ∈ cache v ->
            valid en' && dirty en' = true -> address en' = x -> en' = en).
  { intros en' [k Hk]%list_elem_of_lookup [Hv' _]%andb_true_iff Hx'.
    destruct (Hall _ _ Hk Hv') as [Hs _]. rewrite Hx' in Hs.
    subst k. congruence. }
  destruct (valid en && (address en =? x)) eqn:Hhit.
  - rewrite (visible_hit v x en Hen Hhit).
    apply andb_true_iff in Hhit as [Hv Hx%Z.eqb_eq].
    destruct (dirty en) eqn:Hd.
    + apply (flush_from_memory_hit (cache v) 0%nat v x
               (Z.to_nat (slot x)) en); try assumption.
      intros k en' Hk Hv'. now apply Hall.
    + rewrite flush_from_memory_other.
      * destruct (Hall _ _ Hen Hv) as [_ Hc]. rewrite <- Hx.
        symmetry. now apply Hc.
      * intros en' Hin Hd' Hx'. rewrite (Hother en' Hin Hd' Hx') in Hd'.
        rewrite Hd, andb_false_r in Hd'. discriminate.
  - rewrite (visible_miss v x en Hen Hhit).
    apply flush_from_memory_other.
    intros en' Hin Hd' Hx'. pose proof (Hother en' Hin Hd' Hx') as ->.
    apply andb_true_iff in Hd' as [Hv' _].
    now rewrite Hv', Hx', Z.eqb_refl in Hhit.
Qed.

Lemma flush_cache v : cache (flush_from 0 (cache v) v) = map clean (cache v).
Proof. now apply (flush_from_cache (cache v) []). Qed.

Lemma flush_visible v x :
  wf v -> visible (flush_from 0 (cache v) v) x = visible v x.
Proof.
  intros Hwf. destruct (cache_slot_entry v x Hwf) as [en Hen].
  unfold visible at 1. rewrite flush_cache, list_lookup_fmap, Hen. cbn.
  rewrite flush_memory_visible by exact Hwf.
  assert (valid (clean en) = valid en /\ address (clean en) = address en
          /\ value (clean en) = value en) as (-> & -> & ->).
  { unfold clean. now destruct (valid en && dirty en). }
  destruct (valid en && (address en =? x)) eqn:Hhit; [|reflexivity].
  symmetry. now apply (visible_hit v x en).
Qed.

Lemma wf_flush v : wf v -> wf (flush_from 0 (cache v) v).
Proof.
  intros Hwf. pose proof Hwf as [Hlen Hall]. split.
  - now rewrite flush_cache, length_map.
  - intros i en'. rewrite flush_cache, list_lookup_fmap.
    destruct (cache v !! i) as [en|] eqn:Hen; [|discriminate].
    cbn. intros [= <-] Hv.
    assert (valid (clean en) = valid en /\ address (clean en) = address en
            /\ value (clean en) = value en) as (Ev & -> & ->).
    { unfold clean. now destruct (valid en && dirty en). }
    rewrite Ev in Hv. destruct (Hall _ _ Hen Hv) as [Hs _].
    split; [exact Hs|]. intros _.
    rewrite flush_memory_visible by exact Hwf. symmetry.
    apply (visible_hit v _ en); [now rewrite Hs|].
    now rewrite Hv, Z.eqb_refl.
Qed.

(** X6: on a well-formed cache, [flush] returns and keeps the
    invariant; afterwards no entry is dirty, memory holds at every
    address the byte that was visible there, and every address still
    shows the same byte. *)
Theorem cache_flush_commits v :
  wf v ->
  exists v',
    flush v = (Return tt, v')
    /\ wf v'
    /\ has_dirty (cache v') = false
    /\ (forall x, memory v' x = visible v x)
    /\ (forall x, visible v' x = visible v x).
Proof.
  intros Hwf. exists (flush_from 0 (cache v) v).
  split; [apply flush_eq|]. split; [now apply wf_flush|]. split.
  - rewrite flush_cache. apply has_dirty_clean.
  - split; intros x; [now apply flush_memory_visible | now apply flush_visible].
Qed.

Lemma cache_flush_commits_witness :
  let v := snd (write 5 7 (mkView ctor mem_zero)) in
  wf v
  /\ exists v', flush v = (Return tt, v') /\ memory v' 5 = visible v 5.
Proof.
  cbn zeta.
  assert (Hwf : wf (snd (write 5 7 (mkView ctor mem_zero)))).
  { rewrite (cache_write_entry _ 5 7 (cache_wf_ctor mem_zero)).
    apply wf_after_write, cache_wf_ctor. }
  split; [exact Hwf|].
  destruct (cache_flush_commits _ Hwf) as (v' & Hf & _ & _ & Hm & _).
  exists v'. split; [exact Hf | apply Hm].
Defined.

(** X7: [write] replaces the entry of its slot without writing it
    back.  After a write to [a1] and a write to another address [a2]
    of the same slot, memory is as before both writes, a [read] of
    [a1] returns the byte memory held at [a1] before them, and so does
    memory after a [flush]: the byte written to [a1] is lost. *)
Theorem cache_write_drops_buffered_write v a1 a2 val1 val2 :
  wf v -> a1 <> a2 -> slot a1 = slot a2 ->
  let v2 := snd (write a2 val2 (snd (write a1 val1 v))) in
  memory v2 = memory v
  /\ fst (read a1 v2) = Return (memory v a1)
  /\ memory (snd (flush v2)) a1 = memory v a1
  /\ fst (read a2 v2) = Return val2.
Proof.
  intros Hwf Hne Hslot. cbn zeta.
  rewrite (cache_write_entry v a1 val1 Hwf). cbn [snd].
  pose proof (wf_after_write v a1 val1 Hwf) as Hwf1.
  rewrite (cache_write_entry _ a2 val2 Hwf1). cbn [snd].
  pose proof (wf_after_write _ a2 val2 Hwf1) as Hwf2.
  set (v2 := set_entry (slot a2) (mkEntry a2 val2 true true)
               (set_entry (slot a1) (mkEntry a1 val1 true true) v)) in *.
  assert (Hvis : visible v2 a1 = memory v a1).
  { unfold v2. rewrite visible_set_entry by exact Hwf1. cbn.
    destruct (decide (slot a1 = slot a2)); [|contradiction].
    now destruct (Z.eqb_spec a2 a1); [congruence|]. }
  assert (Hvis2 : visible v2 a2 = val2).
  { unfold v2. rewrite visible_set_entry by exact Hwf1. cbn.
    destruct (decide (slot a2 = slot a2)); [|contradiction].
    now rewrite Z.eqb_refl. }
  split; [reflexivity|]. split; [|split].
  - destruct (cache_read_visible v2 a1 Hwf2) as (v' & -> & _).
    cbn. now rewrite Hvis.
  - rewrite flush_eq. cbn [snd].
    now rewrite flush_memory_visible by exact Hwf2.
  - destruct (cache_read_visible v2 a2 Hwf2) as (v' & -> & _).
    cbn. now rewrite Hvis2.
Qed.

Lemma cache_write_drops_buffered_write_witness :
  let v2 := snd (write 261 9 (snd (write 5 7 (mkView ctor mem_zero)))) in
  fst (read 5 v2) = Return 0
  /\ memory (snd (flush v2)) 5 = 0.
Proof.
  cbn zeta.
  destruct (cache_write_drops_buffered_write (mkView ctor mem_zero)
              5 261 7 9 (cache_wf_ctor mem_zero))
    as (_ & Hr & Hf & _); [lia | reflexivity |].
  split; [exact Hr | exact Hf].
Defined.

End ByteCache.

(** ** Runs of trace entries *)

Section TraceRuns.

Import Tracer.

Implicit Types (t : InstructionTracer) (e : TraceEntry).

Lemma most_recent_all n l :
  (length l <= n)%nat -> most_recent n l = l.
Proof.
  intros H. unfold most_recent.
  now replace (length l - n)%nat with 0%nat by lia.
Qed.

Lemma most_recent_app n l k :
  most_recent n (most_recent n l ++ k) = most_recent n (l ++ k).
Proof.
  destruct (Nat.le_gt_cases (length l) n) as [Hle|Hgt].
  - now rewrite (most_recent_all n l).
  - unfold most_recent. rewrite !length_app, length_drop, !drop_app.
    rewrite drop_drop, length_drop. f_equal; f_equal; lia.
Qed.

Lemma addTrace_most_recent e t :
  0 <= max_entries t -> bounded t ->
  trace_buffer (addTrace (pc e) (opcode e) (state e) (cycle e) t)
  = most_recent (Z.to_nat (max_entries t)) (trace_buffer t ++ [e])
  /\ bounded (addTrace (pc e) (opcode e) (state e) (cycle e) t).
Proof.
  intros Hmax Hb. unfold bounded in *.
  rewrite addTrace_max_entries, addTrace_buffer. cbn zeta.
  replace (mkEntry (pc e) (opcode e) (state e) (cycle e)) with e
    by now destruct e.
  destruct (Z.ltb_spec (Z.of_nat (length (trace_buffer t)))
                       (max_entries t)) as [Hlt|Hge].
  - rewrite most_recent_all by (rewrite length_app; cbn; lia).
    split; [reflexivity|]. rewrite length_app. cbn. lia.
  - unfold most_recent. rewrite length_app. cbn [length].
    replace (length (trace_buffer t) + 1 - Z.to_nat (max_entries t))%nat
      with 1%nat by lia.
    split; [now destruct (trace_buffer t ++ [e])|].
    destruct (trace_buffer t) as [|old rest]; cbn in *; [lia|].
    rewrite length_app. cbn. lia.
Qed.

Lemma addTraces_most_recent es : forall t,
  0 <= max_entries t -> bounded t ->
  trace_buffer (addTraces es t)
  = most_recent (Z.to_nat (max_entries t)) (trace_buffer t ++ es)
  /\ max_entries (addTraces es t) = max_entries t
  /\ bounded (addTraces es t).
Proof.
  induction es as [|e es IH]; intros t Hmax Hb; cbn [addTraces fold_left].
  - rewrite app_nil_r. split; [|now split].
    symmetry. apply most_recent_all. unfold bounded in Hb. lia.
  - destruct (addTrace_most_recent e t Hmax Hb) as [Hbuf Hb1].
    pose proof (addTrace_max_entries (pc e) (opcode e) (state e) (cycle e) t)
      as Hm1.
    fold (addTraces es (addTrace (pc e) (opcode e) (state e) (cycle e) t)).
    destruct (IH _ (eq_ind_r (fun m => 0 <= m) Hmax Hm1) Hb1)
      as (-> & -> & Hb').
    rewrite Hm1, Hbuf, most_recent_app, <- app_assoc.
    split; [reflexivity|]. split; [reflexivity | exact Hb'].
Qed.

(** X8: after any run of [addTrace] calls on a tracer that holds at
    most [max_entries] entries, the buffer is the last [max_entries]
    elements of the old buffer followed by the new entries, in the
    order of the calls; in particular, after [clear] it is the last
    [max_entries] entries added. *)
Theorem addTraces_keeps_most_recent es t :
  0 <= max_entries t -> bounded t ->
  trace_buffer (addTraces es t)
  = most_recent (Z.to_nat (max_entries t)) (trace_buffer t ++ es)
  /\ trace_buffer (addTraces es (clear t))
     = most_recent (Z.to_nat (max_entries t)) es.
Proof.
  intros Hmax Hb. split; [now apply addTraces_most_recent|].
  apply (addTraces_most_recent es (clear t)); [exact Hmax|].
  unfold bounded. cbn. exact Hmax.
Qed.

Lemma addTraces_keeps_most_recent_witness :
  let e n := mkEntry n 0 S8080.zero 4 in
  trace_buffer (addTraces [e 1; e 2; e 3] (setMaxEntries 2 init))
  = [e 2; e 3].
Proof.
  cbn zeta.
  refine (eq_trans (proj1 (addTraces_keeps_most_recent
                             _ (setMaxEntries 2 init) _ _)) _).
  - cbn. lia.
  - unfold bounded. cbn. lia.
  - reflexivity.
Defined.

End TraceRuns.

(** ** Pending interrupts *)

Section PendingInterrupts.

Import IntCtl.

(** X9: [hasInterrupt] is true exactly when [getNextInterrupt] returns
    a request; after [clear], whatever was queued, [hasInterrupt] is
    false and [getNextInterrupt] throws [INVALID_INTERRUPT]; after
    [queueInterrupt], [hasInterrupt] is true. *)
Theorem hasInterrupt_guards_getNextInterrupt (ic : InterruptController) :
  (hasInterrupt ic = true
   <-> exists req, fst (getNextInterrupt ic) = Return req)
  /\ hasInterrupt (snd (clear ic)) = false
  /\ (exists msg, fst (getNextInterrupt (snd (clear ic)))
                  = Throw (Exn.mk INVALID_INTERRUPT msg))
  /\ (forall c p, hasInterrupt (snd (queueInterrupt c p ic)) = true).
Proof.
  split; [|split; [reflexivity | split; [now eexists|]]].
  - destruct ic as [[|req rest]]; cbn.
    + split; [discriminate | intros [req [=]]].
    + split; [eauto | reflexivity].
  - intros c p. destruct ic as [[|req rest]]; reflexivity.
Qed.

End PendingInterrupts.

(** ** Accesses through the bank controller *)

Section BankAccess.

Import Bank.

Implicit Types (s : MemoryBankController) (m : BankMapping).

Lemma try_recast_code {S A} code (body : M S A) st e st' :
  try_recast code body st = (Throw e, st') -> getCode e = code.
Proof.
  unfold try_recast, try_catch.
  destruct (body st) as [[x|e0|] st0]; [discriminate | | discriminate].
  now intros [= <- _].
Qed.

Lemma write_state_on_throw address value s e s' :
  write address value s = (Throw e, s') -> s' = s.
Proof.
  destruct (first_containing address (mappings s))
    as [Hnone | (before & m & after & Hs & Hb & Hm)].
  - rewrite (write_none _ _ _ Hnone). unfold write_current.
    destruct (_ <=? _); [now intros [= _ <-]|].
    intros E. now apply store_never_throws in E.
  - rewrite (write_first _ _ _ _ _ _ Hs Hb Hm). unfold write_mapped.
    cbn zeta. destruct (readOnly m); [now intros [= _ <-]|].
    destruct (_ <=? _); [now intros [= _ <-]|].
    intros E. now apply store_never_throws in E.
Qed.

(** X10: whichever operation of the controller throws, what it throws
    is a [MEMORY_ACCESS_VIOLATION] and the controller is as it was
    before the call; [read] never changes the controller. *)
Theorem bank_operations_fail_cleanly (o : op) s :
  (forall e, fst (call o s) = Throw e ->
     getCode e = MEMORY_ACCESS_VIOLATION /\ snd (call o s) = s)
  /\ (forall address, snd (read address s) = s).
Proof.
  split; [|intros address; apply read_state].
  intros e. destruct o as [b | address b | address | address value]; cbn.
  - destruct (switchBank b s) as [r s'] eqn:E. cbn. intros ->.
    split; [exact (try_recast_code _ _ _ _ _ E)|].
    rewrite switchBank_eq in E.
    destruct (bad_bank b s); now injection E.
  - destruct (mapMemory address b s) as [r s'] eqn:E. cbn. intros ->.
    split; [exact (try_recast_code _ _ _ _ _ E)|].
    rewrite mapMemory_eq in E.
    destruct (bad_bank b s); [now injection E|].
    destruct (existsb _ _); [now injection E|].
    destruct (_ >? _); [now injection E | discriminate].
  - destruct (read address s) as [r s'] eqn:E.
    pose proof (read_state address s) as Hs. rewrite E in Hs. cbn in *.
    destruct r as [x|e0|]; [discriminate | | discriminate].
    intros [= ->]. split; [exact (try_recast_code _ _ _ _ _ E) | exact Hs].
  - destruct (write address value s) as [r s'] eqn:E. cbn. intros ->.
    split; [exact (try_recast_code _ _ _ _ _ E)|].
    exact (write_state_on_throw _ _ _ _ _ E).
Qed.

(** *** The cell of an address *)

Lemma cell_first address before m after s :
  mappings s = before ++ m :: after ->
  Forall (fun m' => contains m' address = false) before ->
  contains m address = true ->
  cell address s = (bank m, u16 (address - baseAddr m))
  /\ mapped address s = true.
Proof.
  intros Hs Hb Hm. unfold cell, mapped. rewrite Hs. clear Hs. split.
  - induction Hb as [|m' before Hm' _ IH]; cbn [cell_from app];
      [now rewrite Hm | now rewrite Hm'].
  - rewrite existsb_app. cbn [existsb]. rewrite Hm. apply orb_true_r.
Qed.

Lemma cell_none address s :
  Forall (fun m' => contains m' address = false) (mappings s) ->
  cell address s = (currentBank s, address)
  /\ mapped address s = false.
Proof.
  intros Hall. unfold cell, mapped. split.
  - induction Hall as [|m' ms Hm' _ IH]; cbn; [reflexivity|].
    now rewrite Hm'.
  - induction Hall as [|m' ms Hm' _ IH]; cbn; [reflexivity|].
    now rewrite Hm', IH.
Qed.

(** On a well-formed table the offset into a mapped bank is below
    [bankSize]: the test "Bank offset out of range" never fires. *)
Lemma mapped_offset s m address :
  wf s -> m ∈ mappings s -> contains m address = true ->
  u16 (address - baseAddr m) = address - baseAddr m
  /\ 0 <= address - baseAddr m < bankSize s
  /\ readOnly m = false
  /\ 0 <= bank m < Z.of_nat (length (banks s)).
Proof.
  intros (Hsz & _ & Hms & _) Hin Hm.
  rewrite Forall_forall in Hms.
  destruct (Hms m Hin) as (Hro & Hsize & Hbase & Htop & Hbank).
  apply contains_covers in Hm. unfold covers in Hm.
  assert (0 <= address - baseAddr m < bankSize s) as Hoff by lia.
  split; [unfold u16; apply Z.mod_small; lia|]. now repeat split.
Qed.

Lemma read_cell address s :
  wf s ->
  read address s
  = if out_of_range address s
    then (Throw (violation "Address out of range"), s)
    else (fetch (fst (cell address s)) (snd (cell address s)) s, s).
Proof.
  intros Hwf. unfold out_of_range.
  destruct (first_containing address (mappings s))
    as [Hnone | (before & m & after & Hs & Hb & Hm)].
  - destruct (cell_none address s Hnone) as [-> ->].
    rewrite (read_none _ _ Hnone). reflexivity.
  - destruct (cell_first address before m after s Hs Hb Hm) as [-> ->].
    rewrite (read_first _ _ _ _ _ Hs Hb Hm). unfold read_mapped. cbn.
    assert (m ∈ mappings s) as Hin
      by (rewrite Hs; apply list_elem_of_In, in_elt).
    destruct (mapped_offset s m address Hwf Hin Hm) as (-> & Hoff & _).
    destruct (Z.leb_spec (bankSize s) (address - baseAddr m));
      [lia | reflexivity].
Qed.

Lemma write_cell address value s :
  wf s ->
  write address value s
  = if out_of_range address s
    then (Throw (violation "Address out of range"), s)
    else store (fst (cell address s)) (snd (cell address s)) value s.
Proof.
  intros Hwf. unfold out_of_range.
  destruct (first_containing address (mappings s))
    as [Hnone | (before & m & after & Hs & Hb & Hm)].
  - destruct (cell_none address s Hnone) as [-> ->].
    rewrite (write_none _ _ _ Hnone). reflexivity.
  - destruct (cell_first address before m after s Hs Hb Hm) as [-> ->].
    rewrite (write_first _ _ _ _ _ _ Hs Hb Hm). unfold write_mapped. cbn.
    assert (m ∈ mappings s) as Hin
      by (rewrite Hs; apply list_elem_of_In, in_elt).
    destruct (mapped_offset s m address Hwf Hin Hm)
      as (-> & Hoff & -> & _).
    destruct (Z.leb_spec (bankSize s) (address - baseAddr m));
      [lia | reflexivity].
Qed.

(** The cell of an address that is not out of range lies inside the
    bank arrays. *)
Lemma cell_in_bounds address s :
  wf s -> cur_ok s -> banks s <> [] -> 0 <= address ->
  out_of_range address s = false ->
  0 <= fst (cell address s) < Z.of_nat (length (banks s))
  /\ 0 <= snd (cell address s) < bankSize s.
Proof.
  intros Hwf Hcur Hbanks Ha. unfold out_of_range.
  destruct (first_containing address (mappings s))
    as [Hnone | (before & m & after & Hs & Hb & Hm)].
  - destruct (cell_none address s Hnone) as [-> ->]. cbn.
    intros Hlt%Z.leb_gt. destruct Hcur as [?|Hcur]; [contradiction|].
    split; [exact Hcur | lia].
  - destruct (cell_first address before m after s Hs Hb Hm) as [-> _].
    intros _. cbn.
    assert (m ∈ mappings s) as Hin
      by (rewrite Hs; apply list_elem_of_In, in_elt).
    destruct (mapped_offset s m address Hwf Hin Hm)
      as (-> & Hoff & _ & Hbank).
    now split.
Qed.

Lemma in_bounds_row s b off :
  wf s ->
  0 <= b < Z.of_nat (length (banks s)) -> 0 <= off < bankSize s ->
  exists row old,
    banks s !! Z.to_nat b = Some row /\ row !! Z.to_nat off = Some old.
Proof.
  intros (_ & Hrows & _) Hb Hoff.
  destruct (lookup_lt_is_Some_2 (banks s) (Z.to_nat b)) as [row Hrow];
    [lia|].
  rewrite Forall_forall in Hrows.
  pose proof (Hrows row (list_elem_of_lookup_2 _ _ _ Hrow)) as Hlen.
  destruct (lookup_lt_is_Some_2 row (Z.to_nat off)) as [old Hold]; [lia|].
  now exists row, old.
Qed.

Lemma cur_ok_run o s : op_typed o -> cur_ok s -> cur_ok (run o s).
Proof.
  destruct o as [b | address b | address | address value]; cbn;
    intros Ht Hcur.
  - rewrite switchBank_eq. unfold bad_bank.
    destruct (Z.leb_spec (Z.of_nat (length (banks s))) b); [exact Hcur|].
    right. cbn. lia.
  - rewrite mapMemory_eq.
    destruct (bad_bank b s); [exact Hcur|].
    destruct (existsb _ _); [exact Hcur|].
    now destruct (_ >? _).
  - now rewrite read_state.
  - destruct (write address value s) as [[[]|e|] s'] eqn:E; cbn.
    + assert (length (banks s') = length (banks s)
              /\ currentBank s' = currentBank s) as [Hl Hc].
      { destruct (first_containing address (mappings s))
          as [Hnone | (before & m & after & Hs & Hb & Hm)].
        - rewrite (write_none _ _ _ Hnone) in E. unfold write_current in E.
          destruct (_ <=? _); [discriminate|]. rewrite store_eq in E.
          destruct (banks s !! _) as [row|]; [|discriminate].
          destruct (row !! _); [|discriminate].
          injection E as <-. cbn. now rewrite length_insert.
        - rewrite (write_first _ _ _ _ _ _ Hs Hb Hm) in E.
          unfold write_mapped in E. cbn zeta in E.
          destruct (readOnly m); [discriminate|].
          destruct (_ <=? _); [discriminate|]. rewrite store_eq in E.
          destruct (banks s !! _) as [row|]; [|discriminate].
          destruct (row !! _); [|discriminate].
          injection E as <-. cbn. now rewrite length_insert. }
      destruct Hcur as [Hnil|Hcur].
      * left. destruct (banks s'); [reflexivity|].
        rewrite Hnil in Hl. discriminate.
      * right. now rewrite Hl, Hc.
    + now rewrite (write_state_on_throw _ _ _ _ _ E).
    + assert (s' = s) as ->; [|exact Hcur].
      destruct (first_containing address (mappings s))
        as [Hnone | (before & m & after & Hs & Hb & Hm)].
      * rewrite (write_none _ _ _ Hnone) in E. unfold write_current in E.
        destruct (_ <=? _); [discriminate|]. rewrite store_eq in E.
        destruct (banks s !! _) as [row|]; [|now injection E].
        destruct (row !! _); [discriminate | now injection E].
      * rewrite (write_first _ _ _ _ _ _ Hs Hb Hm) in E.
        unfold write_mapped in E. cbn zeta in E.
        destruct (readOnly m); [discriminate|].
        destruct (_ <=? _); [discriminate|]. rewrite store_eq in E.
        destruct (banks s !! _) as [row|]; [|now injection E].
        destruct (row !! _); [discriminate | now injection E].
Qed.

Lemma reachable_cur_ok s : reachable s -> cur_ok s.
Proof.
  induction 1 as [n bsz Hn Hsz | o s Hs IH Ht].
  - unfold cur_ok, ctor. cbn. rewrite length_replicate.
    destruct (Z.to_nat n) eqn:E; [now left | right; lia].
  - now apply cur_ok_run.
Qed.

(** X11: on a controller with at least one bank that was reached
    through the public interface, [read] and [write] never index
    outside the bank arrays.  At an address that no mapping contains
    and that is not below [bankSize] they throw "Address out of range"
    and change nothing; at every other address [read] returns a byte
    and [write] returns. *)
Theorem bank_access_is_memory_safe address value s :
  reachable s -> banks s <> [] -> 0 <= address < 65536 ->
  (out_of_range address s = true ->
     read address s = (Throw (violation "Address out of range"), s)
     /\ write address value s
        = (Throw (violation "Address out of range"), s))
  /\ (out_of_range address s = false ->
      (exists byte, read address s = (Return byte, s))
      /\ exists s', write address value s = (Return tt, s')).
Proof.
  intros Hr Hbanks Ha.
  pose proof (reachable_wf s Hr) as Hwf.
  pose proof (reachable_cur_ok s Hr) as Hcur.
  rewrite (read_cell address s Hwf), (write_cell address value s Hwf).
  split; intros Hoor; rewrite Hoor; [now split|].
  destruct (cell_in_bounds address s Hwf Hcur Hbanks (proj1 Ha) Hoor)
    as [Hb Hoff].
  destruct (in_bounds_row s _ _ Hwf Hb Hoff) as (row & old & Hrow & Hold).
  split.
  - exists old. unfold fetch. now rewrite Hrow; cbn; rewrite Hold.
  - rewrite store_eq, Hrow, Hold. eauto.
Qed.

Lemma bank_access_is_memory_safe_witness :
  let s := run (OpMapMemory 32 1) (ctor 2 16) in
  out_of_range 40 s = false
  /\ out_of_range 20 s = true
  /\ (exists byte, read 40 s = (Return byte, s))
  /\ read 20 s = (Throw (violation "Address out of range"), s).
Proof.
  cbn zeta.
  assert (Hr : reachable (run (OpMapMemory 32 1) (ctor 2 16))).
  { apply reach_step; [apply reach_ctor; lia | cbn; lia]. }
  assert (Hb : banks (run (OpMapMemory 32 1) (ctor 2 16)) <> [])
    by (vm_compute; discriminate).
  split; [reflexivity|]. split; [reflexivity|]. split.
  - refine (proj1 (proj2 (bank_access_is_memory_safe 40 0 _ Hr Hb _) _));
      [lia | reflexivity].
  - vm_compute. reflexivity.
Defined.

(** *** What a write changes *)

Lemma fetch_after_store b off value b' off' s s' :
  store b off value s = (Return tt, s') ->
  0 <= b -> 0 <= off -> 0 <= b' -> 0 <= off' ->
  (b', off') <> (b, off) ->
  fetch b' off' s' = fetch b' off' s.
Proof.
  rewrite store_eq.
  destruct (banks s !! Z.to_nat b) as [row|] eqn:Hrow; [|discriminate].
  destruct (row !! Z.to_nat off) as [old|] eqn:Hold; [|discriminate].
  intros [= <-] Hb Hoff Hb' Hoff' Hne. unfold fetch. cbn.
  destruct (decide (Z.to_nat b' = Z.to_nat b)) as [E|E].
  - rewrite E, list_lookup_insert_eq
      by (eapply lookup_lt_Some; eassumption).
    rewrite Hrow. cbn.
    rewrite list_lookup_insert_ne; [reflexivity|].
    intros E'. apply Hne. f_equal; lia.
  - now rewrite list_lookup_insert_ne by congruence.
Qed.

Lemma store_frame b off value s s' :
  store b off value s = (Return tt, s') ->
  mappings s' = mappings s /\ bankSize s' = bankSize s
  /\ currentBank s' = currentBank s.
Proof. intros H. now apply store_fetch in H. Qed.

(** X12: a [write] that returns changes exactly one bank cell.  On a
    controller with at least one bank that was reached through the
    public interface, after [write a v] a [read] of an address that
    selects the same cell returns [v], also when the address differs
    from [a], and a [read] of an address that selects another cell
    ends as it did before the write. *)
Theorem write_changes_one_cell a a' v s s' :
  reachable s -> banks s <> [] ->
  0 <= a < 65536 -> 0 <= a' < 65536 ->
  write a v s = (Return tt, s') ->
  (cell a' s = cell a s -> read a' s' = (Return v, s'))
  /\ (cell a' s <> cell a s -> read a' s' = (fst (read a' s), s')).
Proof.
  intros Hr Hbanks Ha Ha' Hw.
  pose proof (reachable_wf s Hr) as Hwf.
  pose proof (reachable_cur_ok s Hr) as Hcur.
  rewrite (write_cell a v s Hwf) in Hw.
  destruct (out_of_range a s) eqn:Hoor; [discriminate|].
  destruct (cell_in_bounds a s Hwf Hcur Hbanks (proj1 Ha) Hoor)
    as [Hb Hoff].
  pose proof (wf_store _ _ _ _ _ Hw Hwf) as Hwf'.
  destruct (store_frame _ _ _ _ _ Hw) as (Hms & Hbs & Hc).
  assert (Hcell : cell a' s' = cell a' s)
    by (unfold cell; now rewrite Hms, Hc).
  assert (Hoor' : out_of_range a' s' = out_of_range a' s)
    by (unfold out_of_range, mapped; now rewrite Hms, Hbs).
  rewrite (read_cell a' s' Hwf'), (read_cell a' s Hwf), Hcell, Hoor'.
  split.
  - intros E. rewrite E.
    destruct (out_of_range a' s) eqn:Hoor2.
    + exfalso. unfold out_of_range in Hoor2.
      apply andb_true_iff in Hoor2 as [Hum%negb_true_iff Hge%Z.leb_le].
      destruct (first_containing a' (mappings s))
        as [Hnone | (before & m & after & Hs & Hb0 & Hm)].
      * destruct (cell_none a' s Hnone) as [Hc' _].
        rewrite Hc' in E. rewrite <- E in Hoff. cbn in Hoff. lia.
      * destruct (cell_first a' before m after s Hs Hb0 Hm) as [_ Hm'].
        congruence.
    + now destruct (store_fetch _ _ _ _ _ Hw) as [-> _].
  - intros Hne. destruct (out_of_range a' s) eqn:Hoor2; [reflexivity|].
    destruct (cell_in_bounds a' s Hwf Hcur Hbanks (proj1 Ha') Hoor2)
      as [Hb' Hoff'].
    cbn [fst]. f_equal.
    apply (fetch_after_store _ _ _ _ _ _ _ Hw); try lia.
    now rewrite <- !surjective_pairing.
Qed.

Lemma write_changes_one_cell_witness :
  let s := run (OpMapMemory 32 0) (ctor 2 16) in
  let s' := snd (write 5 7 s) in
  cell 37 s = cell 5 s
  /\ read 37 s' = (Return 7, s')
  /\ read 6 s' = (Return 0, s').
Proof.
  cbn zeta.
  assert (Hr : reachable (run (OpMapMemory 32 0) (ctor 2 16))).
  { apply reach_step; [apply reach_ctor; lia | cbn; lia]. }
  assert (Hb : banks (run (OpMapMemory 32 0) (ctor 2 16)) <> [])
    by (vm_compute; discriminate).
  assert (Hw : write 5 7 (run (OpMapMemory 32 0) (ctor 2 16))
               = (Return tt,
                  snd (write 5 7 (run (OpMapMemory 32 0) (ctor 2 16)))))
    by (vm_compute; reflexivity).
  split; [reflexivity|]. split.
  - refine (proj1 (write_changes_one_cell 5 37 7 _ _ Hr Hb _ _ Hw) _);
      [lia | lia | reflexivity].
  - vm_compute. reflexivity.
Defined.

(** *** What a new mapping changes *)

Lemma cell_from_snoc x ms new cur :
  cell_from x (ms ++ [new]) cur
  = if existsb (fun m => contains m x) ms then cell_from x ms cur
    else if contains new x then (bank new, u16 (x - baseAddr new))
    else (cur, x).
Proof.
  induction ms as [|m ms IH]; cbn [app cell_from existsb]; [reflexivity|].
  now destruct (contains m x).
Qed.

Lemma cell_from_unmapped x ms cur :
  existsb (fun m => contains m x) ms = false ->
  cell_from x ms cur = (cur, x).
Proof.
  induction ms as [|m ms IH]; cbn [cell_from existsb]; [reflexivity|].
  destruct (contains m x); [discriminate | exact IH].
Qed.

(** X13: a [mapMemory address b] that returns takes effect on exactly
    its range.  On a controller reached through the public interface,
    a [read] of an address in [address, address + bankSize) then reads
    bank [b] at offset [x - address], and a [read] of any other
    address ends as it did before. *)
Theorem mapMemory_redirects_its_range address b x s s' :
  reachable s -> 0 <= address < 65536 -> 0 <= b < 256 ->
  mapMemory address b s = (Return tt, s') ->
  (address <= x < address + bankSize s ->
     cell x s' = (b, x - address)
     /\ read x s' = (fetch b (x - address) s, s'))
  /\ (~ (address <= x < address + bankSize s) ->
      read x s' = (fst (read x s), s')).
Proof.
  intros Hr Ha Hb Hmap. pose proof (reachable_wf s Hr) as Hwf.
  rewrite mapMemory_eq in Hmap.
  destruct (bad_bank b s) eqn:Hbank; [discriminate|].
  destruct (existsb _ _) eqn:Hover; [discriminate|].
  destruct (_ >? _) eqn:Htop; [discriminate|].
  destruct (wf_push address b s Ha (proj1 Hb) Hwf Hbank Hover Htop)
    as [Hu16 Hwf'].
  rewrite Hu16 in Hmap. injection Hmap as <-.
  set (new := mkMapping b address (bankSize s) false) in *.
  assert (Hnew : contains new x = true
                 <-> address <= x < address + bankSize s).
  { rewrite contains_covers. unfold covers, new. cbn. lia. }
  assert (Hcell : cell x (push_mapping new s)
                  = if mapped x s then cell x s
                    else if contains new x then (b, u16 (x - address))
                    else (currentBank s, x)).
  { unfold cell, push_mapping, mapped. cbn. apply cell_from_snoc. }
  assert (Hmapped : mapped x (push_mapping new s)
                    = mapped x s || contains new x).
  { unfold mapped, push_mapping. cbn. rewrite existsb_app. cbn.
    now rewrite orb_false_r. }
  rewrite (read_cell x _ Hwf'), (read_cell x s Hwf).
  unfold out_of_range. rewrite Hmapped, Hcell.
  change (bankSize (push_mapping new s)) with (bankSize s).
  change (fetch ?p ?q (push_mapping new s)) with (fetch p q s).
  split.
  - intros Hin. pose proof (proj2 Hnew Hin) as Hc.
    assert (mapped x s = false) as Hum.
    { destruct (mapped x s) eqn:E; [exfalso | reflexivity].
      unfold mapped in E. apply existsb_exists in E as (m & Hm & Hcm).
      assert (overlaps_existing address s) as Ho.
      { exists m, x. split; [now apply list_elem_of_In|].
        split; [now apply contains_covers | exact Hin]. }
      apply no_overlap_test in Ho; [congruence | lia | exact Hwf]. }
    rewrite Hum, Hc. cbn.
    assert (u16 (x - address) = x - address) as ->.
    { destruct Hwf as (Hsz & _). unfold size_t_add, u64 in Htop.
      rewrite Z.mod_small in Htop by lia.
      unfold u16. apply Z.mod_small. lia. }
    now split.
  - intros Hout. assert (contains new x = false) as Hc.
    { destruct (contains new x); [|reflexivity].
      exfalso. now apply Hout, Hnew. }
    rewrite Hc, orb_false_r.
    destruct (mapped x s) eqn:Hm; cbn; [reflexivity|].
    unfold cell. rewrite (cell_from_unmapped x _ _ Hm). cbn.
    now destruct (bankSize s <=? x).
Qed.

Lemma mapMemory_redirects_its_range_witness :
  let s := run (OpWrite 3 9) (run (OpSwitchBank 1) (ctor 2 16)) in
  let s' := snd (mapMemory 32 1 s) in
  read 35 s' = (Return 9, s') /\ read 3 s' = (Return 9, s').
Proof.
  cbn zeta.
  assert (Hr : reachable
    (run (OpWrite 3 9) (run (OpSwitchBank 1) (ctor 2 16)))).
  { apply reach_step;
      [apply reach_step; [apply reach_ctor; lia | cbn; lia] | cbn; lia]. }
  assert (Hm : mapMemory 32 1
                 (run (OpWrite 3 9) (run (OpSwitchBank 1) (ctor 2 16)))
               = (Return tt,
                  snd (mapMemory 32 1
                         (run (OpWrite 3 9)
                              (run (OpSwitchBank 1) (ctor 2 16))))))
    by (vm_compute; reflexivity).
  split.
  - refine (eq_trans
      (proj2 (proj1 (mapMemory_redirects_its_range 32 1 35 _ _ Hr _ _ Hm)
                    _)) _);
      [lia | lia | change (32 <= 35 < 32 + 16); lia |].
    vm_compute. reflexivity.
  - vm_compute. reflexivity.
Defined.

(** *** What a bank switch changes *)

Lemma mapped_split x s :
  (mapped x s = false
   /\ Forall (fun m' => contains m' x = false) (mappings s))
  \/ (mapped x s = true
      /\ exists before m after,
           mappings s = before ++ m :: after
           /\ Forall (fun m' => contains m' x = false) before
           /\ contains m x = true).
Proof.
  destruct (first_containing x (mappings s))
    as [Hnone | (before & m & after & Hs & Hb & Hm)].
  - left. split; [now apply cell_none | exact Hnone].
  - right. split; [now apply (cell_first x before m after)|].
    now exists before, m, after.
Qed.

(** X14: a [switchBank b] that returns redirects exactly the addresses
    that no mapping contains.  Afterwards a [read] of a mapped address
    ends as it did before, and a [read] of an unmapped address below
    [bankSize] reads bank [b] at that offset; this holds in every
    state of the controller. *)
Theorem switchBank_redirects_unmapped_addresses b x s s' :
  switchBank b s = (Return tt, s') ->
  (mapped x s = true -> read x s' = (fst (read x s), s'))
  /\ (mapped x s = false ->
      read x s'
      = if bankSize s <=? x
        then (Throw (violation "Address out of range"), s')
        else (fetch b x s, s')).
Proof.
  rewrite switchBank_eq.
  destruct (bad_bank b s); [discriminate|]. intros [= <-].
  destruct (mapped_split x s)
    as [[Hm Hnone] | [Hm (before & m & after & Hs & Hb & Hc)]];
    rewrite Hm; (split; [|]); try discriminate; intros _.
  - rewrite (read_none x (set_currentBank b s)) by exact Hnone.
    reflexivity.
  - rewrite (read_first x before m after (set_currentBank b s))
      by assumption.
    rewrite (read_first x before m after s) by assumption.
    unfold read_mapped. cbn. now destruct (_ <=? _).
Qed.

Lemma switchBank_redirects_unmapped_addresses_witness :
  let s := run (OpWrite 3 9) (run (OpSwitchBank 1) (ctor 2 16)) in
  let s' := snd (switchBank 0 s) in
  read 3 s = (Return 9, s) /\ read 3 s' = (Return 0, s').
Proof.
  cbn zeta. split; [vm_compute; reflexivity|].
  assert (Hs : switchBank 0
                 (run (OpWrite 3 9) (run (OpSwitchBank 1) (ctor 2 16)))
               = (Return tt,
                  snd (switchBank 0
                         (run (OpWrite 3 9)
                              (run (OpSwitchBank 1) (ctor 2 16))))))
    by (vm_compute; reflexivity).
  refine (eq_trans
    (proj2 (switchBank_redirects_unmapped_addresses 0 3 _ _ Hs) _) _);
    vm_compute; reflexivity.
Defined.

(** *** A fresh controller *)

(** X15: a controller constructed with at least one bank reads zero
    at every address below [bank_size] and throws "Address out of
    range" at every other address; nothing is mapped and bank 0 is
    current. *)
Theorem fresh_controller_reads_zero num_banks bank_size address :
  1 <= num_banks -> 0 <= bank_size -> 0 <= address ->
  let s := ctor num_banks bank_size in
  read address s
  = (if bank_size <=? address
     then Throw (violation "Address out of range") else Return 0, s)
  /\ mappings s = [] /\ currentBank s = 0.
Proof.
  intros Hn Hsz Ha. cbn zeta. split; [|now split].
  rewrite read_none by constructor. unfold read_current. cbn.
  destruct (Z.leb_spec bank_size address); [reflexivity|].
  unfold fetch. cbn.
  rewrite lookup_replicate_2 by lia. cbn.
  now rewrite lookup_replicate_2 by lia.
Qed.

Lemma fresh_controller_reads_zero_witness :
  read 16383 (ctor 4 16384) = (Return 0, ctor 4 16384)
  /\ fst (read 16384 (ctor 4 16384))
     = Throw (violation "Address out of range").
Proof.
  split.
  - refine (proj1 (fresh_controller_reads_zero 4 16384 16383 _ _ _)); lia.
  - refine (f_equal fst
      (proj1 (fresh_controller_reads_zero 4 16384 16384 _ _ _))); lia.
Defined.

End BankAccess.

(** ** Effects of a step *)

Section StepEffects.

Import Cpu.

Variable base_Emulate8080p : Z -> M CPU8080 Z.
Variable duration : Z.

Local Abbreviation step := (Emulate8080p base_Emulate8080p duration).
Local Abbreviation slow := (execute_normally base_Emulate8080p duration).

Implicit Types (cpu : EnhancedCPU8080) (cached : CachedInstruction).

Lemma table_length opcode :
  1 <= Decoder.length (Decoder.INSTRUCTION_TABLE opcode) <= 3.
Proof.
  unfold Decoder.INSTRUCTION_TABLE.
  destruct ((64 <=? opcode) && (opcode <=? 127)); [cbn; lia|].
  destruct ((128 <=? opcode) && (opcode <=? 191)); [cbn; lia|].
  repeat match goal with
         | |- context [match ?x with _ => _ end] => destruct x
         end; cbn; lia.
Qed.

(** What a normal execution leaves in the tracer, the instruction
    cache, the flush counter and the byte cache, when the base class
    returns [c] and leaves [b']. *)
Lemma execute_normally_effects debug pc0 cpu c b' :
  base_Emulate8080p debug (base cpu) = (Return c, b') ->
  exists cpu',
    slow debug pc0 cpu = (Return (u32 (u64 c)), cpu')
    /\ instructionCache cpu'
       = (if (debug =? 0)
             && (Z.of_nat (size (instructionCache cpu)) <? 1024)
          then <[u16 (S8080.pc (state b')
                      - Decoder.length
                          (Decoder.INSTRUCTION_TABLE (memory b' pc0)))
                 := make_cached (memory b' pc0) (u64 c) (state b')]>
                 (instructionCache cpu)
          else instructionCache cpu)
    /\ tracer cpu'
       = (if tracingEnabled cpu
          then Tracer.addTrace (S8080.pc (state b')) (memory b' pc0)
                               (state b') (u64 c) (tracer cpu)
          else tracer cpu)
    /\ cacheFlushCounter cpu'
       = (if 1000 <=? u32 (cacheFlushCounter cpu + 1) then 0
          else u32 (cacheFlushCounter cpu + 1))
    /\ ((1000 <=? u32 (cacheFlushCounter cpu + 1)) = true ->
        memoryCache cpu' = map Cache.clean (memoryCache cpu))
    /\ ((1000 <=? u32 (cacheFlushCounter cpu + 1)) = false ->
        memoryCache cpu' = memoryCache cpu
        /\ memory (base cpu') = memory b').
Proof.
  intros Hbase. unfold execute_normally, bind, on_base. rewrite Hbase.
  unfold when, opcode_at, bind, gets, modify, ret, on_memoryCache,
    Cache.flush, try_replace, try_catch, modify, store_cached.
  destruct cpu as [b tr pr bk t ic mb p icache mc cnt].
  cbn -[u32 u64 u16 Z.ltb Z.leb Z.gtb Z.eqb Cache.flush_from make_cached
        Decoder.INSTRUCTION_TABLE].
  destruct ((debug =? 0) && (Z.of_nat (size icache) <? 1024));
    destruct tr; destruct pr;
    cbn -[u32 u64 u16 Z.ltb Z.leb Z.gtb Z.eqb Cache.flush_from make_cached
          Decoder.INSTRUCTION_TABLE];
    destruct (1000 <=? u32 (cnt + 1)) eqn:Htick;
    cbn -[u32 u64 u16 Z.ltb Z.leb Z.gtb Z.eqb Cache.flush_from make_cached
          Decoder.INSTRUCTION_TABLE];
    eexists; (split; [reflexivity|]);
    (split; [reflexivity|]); (split; [reflexivity|]);
    (split; [reflexivity|]);
    (split; [intros H | intros H]); try discriminate H;
    try (split; reflexivity);
    apply (flush_cache (Cache.mkView mc _)).
Qed.

Lemma replay_effects cached pc0 cpu :
  exists cpu',
    replay cached pc0 cpu = (Return (u32 (cycles cached)), cpu')
    /\ base cpu'
       = set_state (apply_cached cached (state (base cpu))) (base cpu)
    /\ tracer cpu' = tracer cpu
    /\ instructionCache cpu' = instructionCache cpu
    /\ memoryCache cpu' = memoryCache cpu
    /\ memoryBanking cpu' = memoryBanking cpu
    /\ cacheFlushCounter cpu' = cacheFlushCounter cpu.
Proof.
  unfold replay, when, opcode_at, bind, gets, modify, ret.
  destruct cpu as [b tr pr bk t ic mb p icache mc cnt].
  cbn -[u32]. destruct pr; cbn -[u32];
    eexists; (split; [reflexivity|]); now repeat split.
Qed.

(** A step is a replay of a usable cache entry or a normal
    execution. *)
Lemma step_cases debug cpu :
  (debug = 0
   /\ exists cached,
        instructionCache cpu !! S8080.pc (state (base cpu)) = Some cached
        /\ step debug cpu
           = replay cached (S8080.pc (state (base cpu))) cpu)
  \/ ((debug <> 0 \/ fast_path_hit cpu = false)
      /\ step debug cpu = slow debug (S8080.pc (state (base cpu))) cpu).
Proof.
  destruct (Z.eq_dec debug 0) as [->|Hd].
  - destruct (fast_path_hit cpu) eqn:Hit.
    + left. split; [reflexivity|].
      apply fast_path_hit_true in Hit as (cached & Hc & Hf & Hm).
      exists cached. split; [exact Hc | now apply step_fast].
    + right. split; [now right | apply step_slow; now right].
  - right. split; [now left | apply step_slow; now left].
Qed.

(** The state after a normal execution in which the base class does
    not return. *)
Lemma slow_not_returning debug pc0 cpu :
  (forall c b', base_Emulate8080p debug (base cpu) <> (Return c, b')) ->
  snd (slow debug pc0 cpu)
  = set_base (snd (base_Emulate8080p debug (base cpu))) cpu.
Proof.
  intros Hno. pose proof (execute_normally_shape base_Emulate8080p
                            duration debug pc0 cpu) as Hs.
  destruct (base_Emulate8080p debug (base cpu)) as [[c|e|] b'].
  - now destruct (Hno c b').
  - now rewrite Hs.
  - now rewrite Hs.
Qed.

Lemma base_returns_or_not debug cpu :
  (exists c b', base_Emulate8080p debug (base cpu) = (Return c, b'))
  \/ (forall c b', base_Emulate8080p debug (base cpu) <> (Return c, b')).
Proof.
  destruct (base_Emulate8080p debug (base cpu)) as [[c|e|] b'];
    [left; eauto | right; discriminate | right; discriminate].
Qed.

Lemma cached_ok_make opcode c st : cached_ok (make_cached opcode c st).
Proof.
  split; cbn; [apply table_length|].
  unfold u8. apply Z.mod_pos_bound. lia.
Qed.

(** X16: the instruction cache never holds more than 1024 entries, and
    every entry has a length of one to three bytes and a cycle count
    below 256: whatever the base class does, a step from a CPU with
    this property leads to a CPU with this property. *)
Theorem instruction_cache_stays_bounded debug cpu :
  cache_ok cpu ->
  cache_ok (snd (Emulate8080p base_Emulate8080p duration debug cpu)).
Proof.
  intros [Hsize Hall].
  destruct (step_cases debug cpu)
    as [[_ (cached & _ & ->)] | [_ ->]].
  - destruct (replay_effects cached (S8080.pc (state (base cpu))) cpu)
      as (cpu' & -> & _ & _ & Hic & _).
    unfold cache_ok. cbn [snd]. now rewrite Hic.
  - destruct (base_returns_or_not debug cpu) as [(c & b' & Hb) | Hno].
    + destruct (execute_normally_effects debug
                  (S8080.pc (state (base cpu))) cpu c b' Hb)
        as (cpu' & -> & Hic & _).
      unfold cache_ok. cbn [snd]. rewrite Hic.
      destruct ((debug =? 0) && _) eqn:Hins; [|now split].
      apply andb_true_iff in Hins as [_ Hlt%Z.ltb_lt]. split.
      * rewrite map_size_insert. destruct (_ !! _); unfold id; lia.
      * apply map_Forall_insert_2; [apply cached_ok_make | exact Hall].
    + rewrite slow_not_returning by exact Hno. now split.
Qed.

(** X17: with a debug argument other than zero a step neither uses nor
    changes the instruction cache. *)
Theorem debug_step_keeps_instruction_cache debug cpu :
  debug <> 0 ->
  instructionCache
    (snd (Emulate8080p base_Emulate8080p duration debug cpu))
  = instructionCache cpu
  /\ Emulate8080p base_Emulate8080p duration debug cpu
     = execute_normally base_Emulate8080p duration debug
         (S8080.pc (state (base cpu))) cpu.
Proof.
  intros Hd. rewrite step_slow by now left. split; [|reflexivity].
  destruct (base_returns_or_not debug cpu) as [(c & b' & Hb) | Hno].
  - destruct (execute_normally_effects debug
                (S8080.pc (state (base cpu))) cpu c b' Hb)
      as (cpu' & -> & Hic & _).
    cbn [snd]. rewrite Hic.
    now destruct (Z.eqb_spec debug 0).
  - now rewrite slow_not_returning by exact Hno.
Qed.

(** X18: when the step executes normally and the base class throws,
    the step throws the same exception and the CPU is what the base
    class left: no cache entry, no trace entry, no profile record and
    no tick of the flush counter. *)
Theorem base_exception_passes_through debug cpu e b' :
  base_Emulate8080p debug (base cpu) = (Throw e, b') ->
  debug <> 0 \/ fast_path_hit cpu = false ->
  Emulate8080p base_Emulate8080p duration debug cpu
  = (Throw e, set_base b' cpu).
Proof.
  intros Hb Hslow. rewrite step_slow by exact Hslow.
  pose proof (execute_normally_shape base_Emulate8080p duration debug
                (S8080.pc (state (base cpu))) cpu) as Hs.
  now rewrite Hb in Hs.
Qed.

(** X19: a step on the fast path replays registers only.  The seven
    registers take the cached values and PC moves forward by the
    cached length; SP, the flags, the interrupt-enable byte, guest
    memory, the byte cache, the trace buffer (even with tracing
    enabled), the instruction cache and the bank controller are as
    before. *)
Theorem fast_path_replays_registers_only cpu cached :
  instructionCache cpu !! S8080.pc (state (base cpu)) = Some cached ->
  affects_flags cached = false ->
  Decoder.memory_access
    (Decoder.INSTRUCTION_TABLE
       (memory (base cpu) (S8080.pc (state (base cpu)))))
  = false ->
  let cpu' := snd (Emulate8080p base_Emulate8080p duration 0 cpu) in
  let st := state (base cpu) in
  let st' := state (base cpu') in
  S8080.pc st' = u16 (S8080.pc st + length cached)
  /\ (S8080.a st', S8080.b st', S8080.c st', S8080.d st',
      S8080.e st', S8080.h st', S8080.l st')
     = (result_a cached, result_b cached, result_c cached,
        result_d cached, result_e cached, result_h cached,
        result_l cached)
  /\ S8080.sp st' = S8080.sp st
  /\ S8080.cc st' = S8080.cc st
  /\ S8080.int_enable st' = S8080.int_enable st
  /\ memory (base cpu') = memory (base cpu)
  /\ memoryCache cpu' = memoryCache cpu
  /\ tracer cpu' = tracer cpu
  /\ instructionCache cpu' = instructionCache cpu
  /\ memoryBanking cpu' = memoryBanking cpu.
Proof.
  intros Hc Hf Hm. cbn zeta. rewrite (step_fast _ _ _ _ Hc Hf Hm).
  destruct (replay_effects cached (S8080.pc (state (base cpu))) cpu)
    as (cpu' & -> & Hb & Ht & Hic & Hmc & Hmb & _).
  cbn [snd]. rewrite Hb, Ht, Hic, Hmc, Hmb. now repeat split.
Qed.

(** X20: the flush counter stays below 1000.  From a counter below
    1000 every step leaves a counter below 1000; a normal execution
    in which the base class returns moves it to the next value modulo
    1000, and when that is zero no entry of the byte cache is left
    dirty. *)
Theorem flush_counter_stays_below_period debug cpu :
  counter_ok cpu ->
  let cpu' := snd (Emulate8080p base_Emulate8080p duration debug cpu) in
  counter_ok cpu'
  /\ (forall c b',
        base_Emulate8080p debug (base cpu) = (Return c, b') ->
        debug <> 0 \/ fast_path_hit cpu = false ->
        cacheFlushCounter cpu' = (cacheFlushCounter cpu + 1) mod 1000
        /\ (cacheFlushCounter cpu' = 0 ->
            Cache.has_dirty (memoryCache cpu') = false)).
Proof.
  intros Hok. unfold counter_ok in *. cbn zeta.
  assert (Hu : u32 (cacheFlushCounter cpu + 1) = cacheFlushCounter cpu + 1)
    by (unfold u32; apply Z.mod_small; lia).
  assert (Hslow : forall c b',
    base_Emulate8080p debug (base cpu) = (Return c, b') ->
    let cpu' := snd (slow debug (S8080.pc (state (base cpu))) cpu) in
    0 <= cacheFlushCounter cpu' < 1000
    /\ cacheFlushCounter cpu' = (cacheFlushCounter cpu + 1) mod 1000
    /\ (cacheFlushCounter cpu' = 0 ->
        Cache.has_dirty (memoryCache cpu') = false)).
  { intros c b' Hb. cbn zeta.
    destruct (execute_normally_effects debug
                (S8080.pc (state (base cpu))) cpu c b' Hb)
      as (cpu' & -> & _ & _ & Hcnt & Hflush & _).
    cbn [snd]. rewrite Hcnt, Hu in *.
    destruct (Z.leb_spec 1000 (cacheFlushCounter cpu + 1)) as [Hge|Hlt].
    - assert (cacheFlushCounter cpu + 1 = 1000) as -> by lia.
      split; [lia|]. split; [reflexivity|]. intros _.
      rewrite Hflush by reflexivity. apply has_dirty_clean.
    - rewrite Z.mod_small by lia. split; [lia|]. split; [reflexivity|].
      lia. }
  split.
  - destruct (step_cases debug cpu)
      as [[_ (cached & _ & ->)] | [_ ->]].
    + destruct (replay_effects cached (S8080.pc (state (base cpu))) cpu)
        as (cpu' & -> & _ & _ & _ & _ & _ & Hcnt).
      cbn [snd]. now rewrite Hcnt.
    + destruct (base_returns_or_not debug cpu) as [(c & b' & Hb) | Hno].
      * now apply (Hslow c b').
      * now rewrite slow_not_returning by exact Hno.
  - intros c b' Hb Hs. rewrite step_slow by exact Hs.
    now apply (Hslow c b').
Qed.

(** X21: with tracing enabled, a normal execution in which the base
    class returns adds one entry to the trace through [addTrace]: it
    holds the PC after the instruction (not the address the
    instruction was fetched from), the byte now at the fetch address,
    the state after the instruction and the cycle count. *)
Theorem normal_step_traces_next_pc debug cpu c b' :
  tracingEnabled cpu = true ->
  base_Emulate8080p debug (base cpu) = (Return c, b') ->
  debug <> 0 \/ fast_path_hit cpu = false ->
  tracer (snd (Emulate8080p base_Emulate8080p duration debug cpu))
  = Tracer.addTrace (S8080.pc (state b'))
                    (memory b' (S8080.pc (state (base cpu))))
                    (state b') (u64 c) (tracer cpu).
Proof.
  intros Ht Hb Hs. rewrite step_slow by exact Hs.
  destruct (execute_normally_effects debug
              (S8080.pc (state (base cpu))) cpu c b' Hb)
    as (cpu' & -> & _ & Htr & _).
  cbn [snd]. now rewrite Htr, Ht.
Qed.

End StepEffects.

(** ** Step effects on a concrete program *)

Section StepEffectsExamples.

Import Cpu.

Lemma cache_ok_ctor st mem : cache_ok (ctor st mem).
Proof.
  split; cbn; [rewrite map_size_empty; lia | apply map_Forall_empty].
Qed.

Lemma instruction_cache_stays_bounded_witness :
  cache_ok loop_cpu /\ cache_ok (after_steps 1 loop_cpu).
Proof.
  split; [apply cache_ok_ctor|].
  apply (instruction_cache_stays_bounded fragment_Emulate8080p 0 0),
    cache_ok_ctor.
Defined.

Lemma debug_step_keeps_instruction_cache_witness :
  instructionCache
    (snd (Emulate8080p fragment_Emulate8080p 0 1 (after_steps 2 loop_cpu)))
  = instructionCache (after_steps 2 loop_cpu).
Proof.
  refine (proj1 (debug_step_keeps_instruction_cache
                   fragment_Emulate8080p 0 1 _ _)). lia.
Defined.

(** An image whose first byte is outside the fragment of the base
    class. *)
Lemma base_exception_passes_through_witness :
  let cpu := ctor S8080.zero (mem_load 0 [0x76] mem_zero) in
  fst (Emulate8080p fragment_Emulate8080p 0 0 cpu)
  = Throw (Exn.mk INVALID_OPCODE "Unimplemented opcode")
  /\ tracer (snd (Emulate8080p fragment_Emulate8080p 0 0 cpu)) = tracer cpu.
Proof.
  cbn zeta.
  rewrite (base_exception_passes_through fragment_Emulate8080p 0 0
             (ctor S8080.zero (mem_load 0 [0x76] mem_zero))
             (Exn.mk INVALID_OPCODE "Unimplemented opcode")
             (base (ctor S8080.zero (mem_load 0 [0x76] mem_zero))));
    [split; reflexivity | reflexivity | right; reflexivity].
Defined.

Lemma fast_path_replays_registers_only_witness :
  let cpu := enableTracing true (after_steps 2 loop_cpu) in
  let cpu' := snd (Emulate8080p fragment_Emulate8080p 0 0 cpu) in
  S8080.pc (state (base cpu')) = 1
  /\ tracer cpu' = tracer cpu.
Proof.
  cbn zeta.
  destruct (fast_path_replays_registers_only fragment_Emulate8080p 0
              (enableTracing true (after_steps 2 loop_cpu))
              (mkCached 1 5 false 0 0 1 0 0 0 0))
    as (Hpc & _ & _ & _ & _ & _ & _ & Htr & _);
    [vm_compute; reflexivity | reflexivity | vm_compute; reflexivity |].
  split; [rewrite Hpc; vm_compute; reflexivity | exact Htr].
Defined.

Lemma flush_counter_stays_below_period_witness :
  counter_ok loop_cpu
  /\ counter_ok (after_steps 1 loop_cpu)
  /\ cacheFlushCounter (after_steps 1 loop_cpu) = 1.
Proof.
  assert (Hok : counter_ok loop_cpu) by (unfold counter_ok; cbn; lia).
  split; [exact Hok|].
  destruct (flush_counter_stays_below_period fragment_Emulate8080p 0 0
              loop_cpu Hok) as [Hok' Htick].
  split; [exact Hok'|].
  destruct (Htick 5 (snd (fragment_Emulate8080p 0 (base loop_cpu))))
    as [-> _]; [vm_compute; reflexivity | right; reflexivity |].
  reflexivity.
Defined.

Lemma normal_step_traces_next_pc_witness :
  let cpu := enableTracing true loop_cpu in
  Tracer.trace_buffer
    (tracer (snd (Emulate8080p fragment_Emulate8080p 0 0 cpu)))
  = [Tracer.mkEntry 1 3
       (S8080.mkState 0 0 1 0 0 0 0 0 1 (S8080.cc S8080.zero) 0) 5].
Proof.
  cbn zeta.
  rewrite (normal_step_traces_next_pc fragment_Emulate8080p 0 0
             (enableTracing true loop_cpu) 5
             (snd (fragment_Emulate8080p 0
                     (base (enableTracing true loop_cpu)))));
    [vm_compute; reflexivity | reflexivity | vm_compute; reflexivity
    | right; reflexivity].
Defined.

End StepEffectsExamples.

(** ** Profiler *)

Section Profiles.

Import Prof.

Implicit Types (p : InstructionProfile) (r : Execution).

Lemma u64_add_l x y : u64 (u64 x + y) = u64 (x + y).
Proof. unfold u64. apply Zplus_mod_idemp_l. Qed.

Lemma record_all_lookup op runs : forall ps p,
  0 <= op ->
  Forall (fun r => 0 <= opcode r) runs ->
  ps !! Z.to_nat op = Some p ->
  record_all runs ps !! Z.to_nat op
  = Some (fold_left (fun p r => record1 (cycles r) (cache_miss r) p)
                    (of_opcode op runs) p).
Proof.
  induction runs as [|r runs IH]; intros ps p Hop Hall Hp;
    [exact Hp|].
  apply Forall_cons in Hall as [Hr Hall]. cbn [record_all fold_left].
  fold (record_all runs
          (recordExecution (opcode r) (cycles r) (cache_miss r) ps)).
  unfold of_opcode. destruct (decide (opcode r = op)) as [E|E].
  - rewrite filter_cons_True by exact E. cbn [fold_left].
    apply IH; [exact Hop | exact Hall|].
    unfold recordExecution. now rewrite E, list_lookup_alter_eq, Hp.
  - rewrite filter_cons_False by exact E.
    apply IH; [exact Hop | exact Hall|].
    unfold recordExecution. rewrite list_lookup_alter_ne; [exact Hp|].
    intros E'. apply E. lia.
Qed.

(** A profile whose counters are values of [uint64_t]. *)
Lemma record_fold runs : forall p,
  execution_count p = u64 (execution_count p) ->
  total_cycles p = u64 (total_cycles p) ->
  cache_misses p = u64 (cache_misses p) ->
  0 <= max_cycles p ->
  fold_left (fun p r => record1 (cycles r) (cache_miss r) p) runs p
  = mkProfile (u64 (execution_count p + Z.of_nat (length runs)))
              (u64 (total_cycles p + sum_cycles runs))
              (Z.max (max_cycles p) (peak_cycles runs))
              (u64 (cache_misses p + count_misses runs)).
Proof.
  unfold sum_cycles, peak_cycles, count_misses.
  induction runs as [|r runs IH]; intros p Hc Ht Hm Hmax.
  - cbn. rewrite !Z.add_0_r, <- Hc, <- Ht, <- Hm, Z.max_l by lia.
    now destruct p.
  - cbn [fold_left]. rewrite IH.
    + cbn [record1 execution_count total_cycles max_cycles cache_misses
           length foldr].
      f_equal.
      * rewrite u64_add_l. apply (f_equal u64). clear. lia.
      * rewrite u64_add_l. apply (f_equal u64). clear. lia.
      * clear. lia.
      * destruct (cache_miss r); [rewrite u64_add_l|];
          apply (f_equal u64); clear; lia.
    + cbn. unfold u64. now rewrite Zmod_mod.
    + cbn. unfold u64. now rewrite Zmod_mod.
    + cbn. destruct (cache_miss r); [|exact Hm].
      unfold u64. now rewrite Zmod_mod.
    + cbn. lia.
Qed.

(** X22: after any run of [recordExecution] calls on a reset profiler,
    the profile of an opcode holds the number of recorded executions
    of that opcode, the sum of their cycle counts and the number of
    them flagged as cache misses, each modulo 2^64, and the largest of
    their cycle counts; executions of other opcodes do not touch
    it. *)
Theorem profile_sums_recorded_executions op runs :
  0 <= op < 256 ->
  Forall (fun r => 0 <= opcode r) runs ->
  let mine := of_opcode op runs in
  getProfile op (record_all runs init)
  = Some (mkProfile (u64 (Z.of_nat (length mine)))
                    (u64 (sum_cycles mine))
                    (peak_cycles mine)
                    (u64 (count_misses mine))).
Proof.
  intros Hop Hall. cbn zeta. unfold getProfile.
  rewrite (record_all_lookup op runs init zero);
    [|lia | exact Hall | apply lookup_replicate_2; lia].
  rewrite record_fold by (cbn; first [reflexivity | lia]).
  cbn [zero execution_count total_cycles max_cycles cache_misses].
  rewrite !Z.add_0_l.
  assert (Hpeak : forall l, 0 <= peak_cycles l).
  { unfold peak_cycles. induction l as [|r l IH]; cbn; lia. }
  now rewrite Z.max_r by apply Hpeak.
Qed.

Lemma profile_sums_recorded_executions_witness :
  getProfile 3
    (record_all [mkExecution 3 5 false; mkExecution 0xC3 10 true;
                 mkExecution 3 7 true] init)
  = Some (mkProfile 2 12 7 1).
Proof.
  refine (eq_trans (profile_sums_recorded_executions 3 _ _ _) _).
  - lia.
  - repeat constructor; cbn; lia.
  - reflexivity.
Defined.

End Profiles.

(** ** Snapshots *)

Section Snapshots.

Import Snap.

Implicit Types (t : Target) (it : Snapshot).

Lemma guest_bytes : Z.of_nat GUEST_BYTES = 65536.
Proof. unfold GUEST_BYTES. now rewrite Z2Nat.id. Qed.

Lemma length_capture_from n : forall i mem,
  length (capture_from i n mem) = n.
Proof. induction n as [|n IH]; intros i mem; cbn; [|rewrite IH]; reflexivity.
Qed.

Lemma lookup_capture_from n : forall i mem k,
  (k < n)%nat -> capture_from i n mem !! k = Some (mem (i + Z.of_nat k)).
Proof.
  induction n as [|n IH]; intros i mem k Hk; [lia|].
  destruct k as [|k]; cbn [capture_from lookup list_lookup].
  - now rewrite Z.add_0_r.
  - cbn. rewrite IH by lia. do 2 f_equal. lia.
Qed.

(** The copy loop returns when the vector is long enough, and then
    memory holds the vector's bytes over the copied range and is
    untouched elsewhere. *)
Lemma restore_from_spec bytes n : forall i t,
  0 <= i -> (Z.to_nat i + n <= length bytes)%nat ->
  exists t',
    restore_from i n bytes t = (Return tt, t')
    /\ cpu_state t' = cpu_state t
    /\ (forall x, i <= x < i + Z.of_nat n ->
          bytes !! Z.to_nat x = Some (cpu_memory t' x))
    /\ (forall x, ~ (i <= x < i + Z.of_nat n) ->
          cpu_memory t' x = cpu_memory t x).
Proof.
  induction n as [|n IH]; intros i t Hi Hlen.
  - exists t. cbn. split; [reflexivity|]. split; [reflexivity|].
    split; [intros x Hx; lia | reflexivity].
  - cbn [restore_from]. unfold bind, unchecked.
    destruct (lookup_lt_is_Some_2 bytes (Z.to_nat i)) as [v Hv]; [lia|].
    rewrite Hv. cbn.
    destruct (IH (i + 1) (set_byte i v t)) as (t' & Hr & Hst & Hin & Hout);
      [lia | lia|].
    exists t'. split; [exact Hr|]. split; [exact Hst|]. split.
    + intros x Hx. destruct (Z.eq_dec x i) as [->|Hne].
      * rewrite Hout by lia. cbn. unfold mem_set.
        now rewrite Z.eqb_refl.
      * apply Hin. lia.
    + intros x Hx. rewrite Hout by lia. cbn. unfold mem_set.
      destruct (Z.eqb_spec x i); [lia | reflexivity].
Qed.

Lemma find_unused wanted snapshots :
  unused wanted snapshots ->
  List.find (fun s => bool_decide (description s = wanted)) snapshots
  = None.
Proof.
  induction 1 as [|s l Hs _ IH]; cbn; [reflexivity|].
  now rewrite bool_decide_eq_false_2.
Qed.

Lemma find_first wanted before it after :
  unused wanted before -> description it = wanted ->
  List.find (fun s => bool_decide (description s = wanted))
            (before ++ it :: after)
  = Some it.
Proof.
  intros Hb Hit. induction Hb as [|s l Hs _ IH]; cbn.
  - now rewrite bool_decide_eq_true_2.
  - now rewrite bool_decide_eq_false_2.
Qed.

Lemma restore_first wanted before it after t :
  unused wanted before -> description it = wanted ->
  length (memory it) = GUEST_BYTES ->
  exists t',
    restoreSnapshot wanted (before ++ it :: after) t = (Return tt, t')
    /\ cpu_state t' = state it
    /\ (forall x, 0 <= x < 65536 ->
          memory it !! Z.to_nat x = Some (cpu_memory t' x))
    /\ (forall x, ~ (0 <= x < 65536) -> cpu_memory t' x = cpu_memory t x).
Proof.
  intros Hb Hit Hlen. unfold restoreSnapshot.
  rewrite (find_first wanted before it after Hb Hit).
  unfold bind, modify.
  destruct (restore_from_spec (memory it) GUEST_BYTES 0
              (set_cpu_state (state it) t))
    as (t' & Hr & Hst & Hin & Hout);
    [lia | rewrite Hlen; change (Z.to_nat 0) with 0%nat; lia|].
  exists t'. split; [exact Hr|]. split; [exact Hst|].
  split; intros x Hx; [apply Hin | rewrite Hout; [reflexivity|]];
    rewrite guest_bytes; lia.
Qed.

(** X23: [restoreSnapshot] with a description that no snapshot carries
    throws [INVALID_OPCODE] "Snapshot not found" and leaves the CPU
    state and memory as they were; this is so in particular for a
    manager without snapshots. *)
Theorem restoreSnapshot_unknown_description wanted snapshots t :
  unused wanted snapshots ->
  restoreSnapshot wanted snapshots t
  = (Throw (Exn.mk INVALID_OPCODE "Snapshot not found"), t).
Proof.
  intros Hu. unfold restoreSnapshot. now rewrite find_unused.
Qed.

Lemma restoreSnapshot_unknown_description_witness :
  restoreSnapshot "boot" [] (mkTarget S8080.zero mem_zero)
  = (Throw (Exn.mk INVALID_OPCODE "Snapshot not found"),
     mkTarget S8080.zero mem_zero).
Proof.
  apply restoreSnapshot_unknown_description. constructor.
Defined.

Lemma lookup_capture_guest mem x :
  0 <= x < 65536 ->
  capture_from 0 GUEST_BYTES mem !! Z.to_nat x = Some (mem x).
Proof.
  intros Hx. pose proof guest_bytes as Hg.
  assert (Hlt : (Z.to_nat x < GUEST_BYTES)%nat) by lia.
  rewrite (lookup_capture_from GUEST_BYTES 0 mem (Z.to_nat x) Hlt).
  rewrite Z.add_0_l, Z2Nat.id by lia. reflexivity.
Qed.

(** What the snapshot made by [createSnapshot] holds. *)
Lemma created_length wanted st mem :
  length (memory (mkSnapshot wanted st (capture_from 0 GUEST_BYTES mem)))
  = GUEST_BYTES.
Proof.
  generalize (length_capture_from GUEST_BYTES 0 mem).
  generalize (capture_from 0 GUEST_BYTES mem). intros bytes H. exact H.
Qed.

Lemma created_lookup wanted st mem x :
  0 <= x < 65536 ->
  memory (mkSnapshot wanted st (capture_from 0 GUEST_BYTES mem))
    !! Z.to_nat x
  = Some (mem x).
Proof.
  intros Hx. generalize (lookup_capture_guest mem x Hx).
  generalize (capture_from 0 GUEST_BYTES mem). intros bytes H. exact H.
Qed.

(** X24: a snapshot made under a description that no earlier snapshot
    carries can be restored.  After [createSnapshot], whatever state
    and memory the CPU has by then, [restoreSnapshot] with that
    description returns, the CPU state is the one captured, every
    guest address below [0x10000] holds the byte captured, and memory
    from [0x10000] upwards is left as it was. *)
Theorem snapshot_round_trip wanted st mem snapshots t :
  unused wanted snapshots ->
  let snapshots' := snd (createSnapshot wanted st mem snapshots) in
  exists t',
    restoreSnapshot wanted snapshots' t = (Return tt, t')
    /\ cpu_state t' = st
    /\ (forall x, 0 <= x < 65536 -> cpu_memory t' x = mem x)
    /\ (forall x, ~ (0 <= x < 65536) -> cpu_memory t' x = cpu_memory t x).
Proof.
  intros Hu. cbn zeta. unfold createSnapshot, modify. cbn [snd].
  destruct (restore_first wanted snapshots
              (mkSnapshot wanted st (capture_from 0 GUEST_BYTES mem)) [] t
              Hu eq_refl (created_length wanted st mem))
    as (t' & Hr & Hst & Hin & Hout).
  exists t'. split; [exact Hr|]. split; [exact Hst|].
  split; [|exact Hout]. intros x Hx.
  pose proof (Hin x Hx) as Hbyte.
  rewrite (created_lookup wanted st mem x Hx) in Hbyte.
  now injection Hbyte.
Qed.

Lemma snapshot_round_trip_witness :
  exists t',
    restoreSnapshot "boot"
      (snd (createSnapshot "boot" S8080.zero
              (mem_load 0 [0x03; 0xC3] mem_zero) []))
      (mkTarget (S8080.mkState 1 2 3 4 5 6 7 8 9 (S8080.cc S8080.zero) 1)
                mem_zero)
    = (Return tt, t')
    /\ cpu_state t' = S8080.zero
    /\ cpu_memory t' 1 = 0xC3.
Proof.
  destruct (snapshot_round_trip "boot" S8080.zero
              (mem_load 0 [0x03; 0xC3] mem_zero) []
              (mkTarget (S8080.mkState 1 2 3 4 5 6 7 8 9
                                       (S8080.cc S8080.zero) 1) mem_zero))
    as (t' & Hr & Hst & Hin & _); [constructor|].
  exists t'. split; [exact Hr|]. split; [exact Hst|].
  rewrite Hin by lia. reflexivity.
Defined.

(** X25: [restoreSnapshot] takes the first snapshot that carries the
    description.  When a snapshot with the description exists, a
    later [createSnapshot] under the same description changes nothing
    for [restoreSnapshot]: it still restores the state of the earlier
    snapshot, and the later one cannot be restored. *)
Theorem restoreSnapshot_takes_first wanted before it after st mem t :
  wf (before ++ it :: after) ->
  unused wanted before -> description it = wanted ->
  let snapshots := before ++ it :: after in
  let snapshots' := snd (createSnapshot wanted st mem snapshots) in
  restoreSnapshot wanted snapshots' t = restoreSnapshot wanted snapshots t
  /\ exists t',
       restoreSnapshot wanted snapshots' t = (Return tt, t')
       /\ cpu_state t' = state it
       /\ (forall x, 0 <= x < 65536 ->
             memory it !! Z.to_nat x = Some (cpu_memory t' x)).
Proof.
  intros Hwf Hb Hit. cbn zeta. unfold createSnapshot, modify. cbn [snd].
  rewrite <- app_assoc, <- app_comm_cons.
  assert (Hlen : length (memory it) = GUEST_BYTES).
  { unfold wf in Hwf. rewrite Forall_app, Forall_cons in Hwf.
    exact (proj1 (proj2 Hwf)). }
  split.
  - unfold restoreSnapshot.
    rewrite (find_first wanted before it after Hb Hit).
    rewrite (find_first wanted before it _ Hb Hit). reflexivity.
  - destruct (restore_first wanted before it
                (after ++ [mkSnapshot wanted st
                             (capture_from 0 GUEST_BYTES mem)]) t
                Hb Hit Hlen) as (t' & Hr & Hst & Hin & _).
    exists t'. split; [exact Hr|]. split; [exact Hst | exact Hin].
Qed.

Lemma restoreSnapshot_takes_first_witness :
  let first := snd (createSnapshot "boot" S8080.zero mem_zero []) in
  let both :=
    snd (createSnapshot "boot"
           (S8080.mkState 1 2 3 4 5 6 7 8 9 (S8080.cc S8080.zero) 1)
           mem_zero first) in
  restoreSnapshot "boot" both (mkTarget S8080.zero mem_zero)
  = restoreSnapshot "boot" first (mkTarget S8080.zero mem_zero).
Proof.
  cbn zeta.
  refine (proj1 (restoreSnapshot_takes_first "boot" []
                   (mkSnapshot "boot" S8080.zero
                      (capture_from 0 GUEST_BYTES mem_zero)) []
                   _ mem_zero _ _ _ _)).
  - constructor; [apply created_length | constructor].
  - constructor.
  - reflexivity.
Defined.

End Snapshots.
